(** * Huffman codec ([huffman_code.py]): shallow embedding and properties

    The Python module is embedded function by function.

    - A Python [str] is a list of code points; a character (a [str] of
      length one, as produced by iterating over a [str]) is one code point.
    - A Python [dict] is an association list in insertion order with
      pairwise distinct keys: assigning to an existing key keeps its
      position, assigning to a new key appends.  The order is kept
      because [huffman_decoding] reverses the table by iterating over
      it, so that of two symbols with the same code the later one wins.
    - The Huffman tree is the untyped nested list of the source: a node is
      either a character or a Python list of nodes.
    - Exceptions are explicit results.
    - The module-level [code_dict] is the state threaded through
      [code_assigner], [huffman_code] and [huffman_encoding]. *)

From Stdlib Require Import List ZArith NArith Lia Bool String Ascii.
From Stdlib Require Import Permutation Sorted DecimalString.
Import ListNotations.

Set Implicit Arguments.

(** ** Python values *)

Definition char := N.
Definition str := list char.

(** The [str] denoted by a literal. *)
Definition py (s : string) : str := map N_of_ascii (list_ascii_of_string s).

Definition chr (a : ascii) : char := N_of_ascii a.

Definition bit0 : char := Eval cbv in chr "0".
Definition bit1 : char := Eval cbv in chr "1".

Fixpoint str_eqb (a b : str) : bool :=
  match a, b with
  | [], [] => true
  | x :: a', y :: b' => N.eqb x y && str_eqb a' b'
  | _, _ => false
  end.

(** Exceptions the module can raise. *)
Inductive exn : Type := IndexError | KeyError | TypeError.

(** Outcome of a call: a value, a raised exception, or (for the model of
    the [while] loop only) exhaustion of the iteration budget. *)
Inductive result (A : Type) : Type :=
| Ok (a : A)
| Raise (e : exn)
| OutOfFuel.

Arguments Raise {A} e.
Arguments OutOfFuel {A}.

Definition bind {A B : Type} (r : result A) (k : A -> result B) : result B :=
  match r with
  | Ok a => k a
  | Raise e => Raise e
  | OutOfFuel => OutOfFuel
  end.

Notation "x <- r ;; k" := (bind r (fun x => k))
  (at level 61, r at next level, right associativity).

(** ** Dictionaries *)

Section Dict.
Variables K V : Type.
Variable eqb : K -> K -> bool.

Definition dict := list (K * V).

(** [d.get(k)] *)
Fixpoint dict_get (d : dict) (k : K) : option V :=
  match d with
  | [] => None
  | (k', v) :: d' => if eqb k k' then Some v else dict_get d' k
  end.

(** [k in d] *)
Definition dict_mem (d : dict) (k : K) : bool :=
  match dict_get d k with Some _ => true | None => false end.

(** [d[k] = v] *)
Fixpoint dict_set (d : dict) (k : K) (v : V) : dict :=
  match d with
  | [] => [(k, v)]
  | (k', v') :: d' =>
      if eqb k k' then (k, v) :: d' else (k', v') :: dict_set d' k v
  end.

(** [d[k]] *)
Definition dict_index (d : dict) (k : K) : result V :=
  match dict_get d k with Some v => Ok v | None => Raise KeyError end.

Definition keys (d : dict) : list K := map fst d.
End Dict.

Arguments dict_get {K V} eqb d k.
Arguments dict_mem {K V} eqb d k.
Arguments dict_set {K V} eqb d k v.
Arguments dict_index {K V} eqb d k.
Arguments keys {K V} d.

(** Dictionaries keyed by characters, and by strings. *)
Definition cget {V} := @dict_get char V N.eqb.
Definition cset {V} := @dict_set char V N.eqb.
Definition cindex {V} := @dict_index char V N.eqb.
Definition sget {V} := @dict_get str V str_eqb.
Definition sset {V} := @dict_set str V str_eqb.

(** A frequency table and a code table. *)
Definition freq_table := dict char Z.
Definition code_table := dict char str.

(** ** [letter_distribution] *)

Definition letter_distribution_step (letter_occurrence : freq_table)
    (c : char) : freq_table :=
  match cget letter_occurrence c with
  | Some n => cset letter_occurrence c (n + 1)%Z
  | None => cset letter_occurrence c 1%Z
  end.

Definition letter_distribution (original_string : str) : freq_table :=
  fold_left letter_distribution_step original_string [].

(** ** The nested-list tree *)

Unset Elimination Schemes.
Inductive tree : Type :=
| Chr (c : char)
| PyList (items : list tree).
Set Elimination Schemes.

(** Python [==] on nodes. *)
Fixpoint tree_eqb (a b : tree) : bool :=
  match a, b with
  | Chr x, Chr y => N.eqb x y
  | PyList xs, PyList ys =>
      (fix go (xs ys : list tree) : bool :=
         match xs, ys with
         | [], [] => true
         | x :: xs', y :: ys' => tree_eqb x y && go xs' ys'
         | _, _ => false
         end) xs ys
  | _, _ => false
  end.

(** Python [<] on nodes: characters by code point, lists
    lexicographically, a character against a list is a [TypeError]. *)
Fixpoint tree_lt (a b : tree) : result bool :=
  match a, b with
  | Chr x, Chr y => Ok (N.ltb x y)
  | PyList xs, PyList ys =>
      (fix go (xs ys : list tree) : result bool :=
         match xs, ys with
         | [], [] => Ok false
         | [], _ :: _ => Ok true
         | _ :: _, [] => Ok false
         | x :: xs', y :: ys' =>
             if tree_eqb x y then go xs' ys' else tree_lt x y
         end) xs ys
  | _, _ => Raise TypeError
  end.

(** ** [node_reducer] *)

(** An element of [node_list]: [(frequency, character, node_structure)]. *)
Definition entry : Type := Z * char * tree.

Definition e_freq (e : entry) : Z := fst (fst e).
Definition e_char (e : entry) : char := snd (fst e).
Definition e_node (e : entry) : tree := snd e.

(** Python [<] on the tuples: the first position where the tuples differ
    decides. *)
Definition tuple_lt (a b : entry) : result bool :=
  if Z.eqb (e_freq a) (e_freq b) then
    if N.eqb (e_char a) (e_char b) then tree_lt (e_node a) (e_node b)
    else Ok (N.ltb (e_char a) (e_char b))
  else Ok (Z.ltb (e_freq a) (e_freq b)).

(** [SortedList.add] of the [sortedcontainers] library: the value goes in
    front of the first element that is greater than it (the position
    [bisect_right] finds).  The library finds that position by
    bisection; the scan below compares the value with the elements from
    the left and stops at the same position.  An exception raised by a
    comparison is passed on. *)
Fixpoint sl_add (x : entry) (node_list : list entry) : result (list entry) :=
  match node_list with
  | [] => Ok [x]
  | y :: rest =>
      b <- tuple_lt x y ;;
      if b then Ok (x :: y :: rest)
      else (rest' <- sl_add x rest ;; Ok (y :: rest'))
  end.

(** The [for] loop filling [node_list]. *)
Fixpoint node_fill (items : freq_table) (node_list : list entry)
    : result (list entry) :=
  match items with
  | [] => Ok node_list
  | (c, n) :: items' =>
      node_list' <- sl_add (n, c, Chr c) node_list ;;
      node_fill items' node_list'
  end.

(** The [while len(node_list) > 1] loop; [fuel] bounds the iterations. *)
Fixpoint node_merge (fuel : nat) (node_list : list entry)
    : result (list entry) :=
  match node_list with
  | a :: b :: rest =>
      match fuel with
      | O => OutOfFuel
      | S fuel' =>
          node_list' <- sl_add (e_freq a + e_freq b, e_char a,
                                PyList [e_node a; e_node b])%Z rest ;;
          node_merge fuel' node_list'
      end
  | _ => Ok node_list
  end.

Definition node_reducer (letter_occurrence_dictionary : freq_table)
    : result tree :=
  node_list <- node_fill letter_occurrence_dictionary [] ;;
  node_list' <- node_merge (List.length node_list) node_list ;;
  match node_list' with
  | [] => Raise IndexError
  | e :: _ => Ok (e_node e)
  end.

(** ** [code_assigner] and the module-level [code_dict] *)

(** What a call returns: a dictionary built by the call, or the
    module-level [code_dict] object itself. *)
Inductive dict_ref : Type :=
| Fresh (d : code_table)
| ModuleCodeDict.

(** The dictionary a reference denotes in a given module state. *)
Definition deref (r : dict_ref) (code_dict : code_table) : code_table :=
  match r with
  | Fresh d => d
  | ModuleCodeDict => code_dict
  end.

(** A computation over the module state. *)
Definition M (A : Type) : Type := code_table -> result A * code_table.

Definition ret {A} (a : A) : M A := fun st => (Ok a, st).
Definition raise {A} (e : exn) : M A := fun st => (Raise e, st).
Definition lift {A} (r : result A) : M A := fun st => (r, st).

Definition mbind {A B} (m : M A) (k : A -> M B) : M B :=
  fun st =>
    match m st with
    | (Ok a, st') => k a st'
    | (Raise e, st') => (Raise e, st')
    | (OutOfFuel, st') => (OutOfFuel, st')
    end.

Notation "x <~ m ;; k" := (mbind m (fun x => k))
  (at level 61, m at next level, right associativity).

(** [code_dict[c] = code] *)
Definition assign (c : char) (code : str) : M unit :=
  fun st => (Ok tt, cset st c code).

(** [code_assigner(nested_list, index)].  [len(nested_list) == 1] holds
    for a character, which is its own element 0, and for a one-element
    list, whose element must be hashable to become a key.  On the empty
    list [nested_list[0]] is out of range.  On a longer list each of the
    first two children that is a list is visited recursively (the value
    returned by the inner call is dropped), each that is a character is
    written to [code_dict], and [code_dict] is returned. *)
Fixpoint code_assigner (nested_list : tree) (index : str) : M dict_ref :=
  match nested_list with
  | Chr c => ret (Fresh [(c, [bit1])])
  | PyList [] => raise IndexError
  | PyList [Chr c] => ret (Fresh [(c, [bit1])])
  | PyList [PyList _] => raise TypeError
  | PyList (x0 :: x1 :: _) =>
      _ <~ match x0 with
           | PyList _ => _ <~ code_assigner x0 (index ++ [bit0]) ;; ret tt
           | Chr c => assign c (index ++ [bit0])
           end ;;
      _ <~ match x1 with
           | PyList _ => _ <~ code_assigner x1 (index ++ [bit1]) ;; ret tt
           | Chr c => assign c (index ++ [bit1])
           end ;;
      ret ModuleCodeDict
  end.

(** ** [huffman_code] *)

Definition huffman_code (original_string : str) : M dict_ref :=
  node_reduced_list <~ lift (node_reducer (letter_distribution original_string)) ;;
  code_assigner node_reduced_list [].

(** ** [huffman_encoding] *)

(** The [for] loop of [huffman_encoding] over a given dictionary. *)
Fixpoint encode_loop (char_code : code_table) (original_string : str)
    (encoded_string : str) : result str :=
  match original_string with
  | [] => Ok encoded_string
  | c :: rest =>
      code <- cindex char_code c ;;
      encode_loop char_code rest (encoded_string ++ code)
  end.

Definition huffman_encoding (original_string : str) : M str :=
  char_code <~ huffman_code original_string ;;
  fun st => (encode_loop (deref char_code st) original_string [], st).

(** ** [huffman_decoding] *)

(** [{v: k for k, v in code_dict.items()}] *)
Definition reverse_dict (code_dict : code_table) : dict str char :=
  fold_left (fun rev kv => sset rev (snd kv) (fst kv)) code_dict [].

(** The [for] loop of [huffman_decoding]. *)
Fixpoint decode_loop (reverse_code_dict : dict str char) (encoded_string : str)
    (decoded_string current_code : str) : result (str * str) :=
  match encoded_string with
  | [] => Ok (decoded_string, current_code)
  | bit :: rest =>
      let current_code := current_code ++ [bit] in
      if dict_mem str_eqb reverse_code_dict current_code then
        c <- dict_index str_eqb reverse_code_dict current_code ;;
        decode_loop reverse_code_dict rest (decoded_string ++ [c]) []
      else decode_loop reverse_code_dict rest decoded_string current_code
  end.

Definition huffman_decoding (encoded_string : str) (code_dict : code_table)
    : result str :=
  r <- decode_loop (reverse_dict code_dict) encoded_string [] [] ;;
  Ok (fst r).

(** * Specification vocabulary *)

(** ** Prefixes *)

Definition is_prefix (p w : str) : Prop := exists q, w = p ++ q.

(** The symbol a code decodes to: the key of the last entry of the table
    that carries this code (later entries overwrite earlier ones when the
    dictionary is reversed). *)
Fixpoint code_owner (code_dict : code_table) (w : str) : option char :=
  match code_dict with
  | [] => None
  | (c, v) :: rest =>
      match code_owner rest w with
      | Some c' => Some c'
      | None => if str_eqb v w then Some c else None
      end
  end.

(** No non-empty prefix of [w] is a code of the table. *)
Definition unmatched (t : code_table) (w : str) : Prop :=
  forall p, p <> [] -> is_prefix p w -> code_owner t p = None.

(** One step of the greedy scan: [w] is a code of [c] and no shorter
    non-empty prefix of [w] is a code. *)
Definition greedy_token (t : code_table) (tok : str * char) : Prop :=
  fst tok <> [] /\ code_owner t (fst tok) = Some (snd tok) /\
  forall p, p <> [] -> is_prefix p (fst tok) -> p <> fst tok ->
            code_owner t p = None.


(** ** Trees *)

(** A well-formed Huffman tree: a character, or a list of exactly two
    well-formed nodes. *)
Inductive well_formed : tree -> Prop :=
| wf_leaf (c : char) : well_formed (Chr c)
| wf_node (l r : tree) :
    well_formed l -> well_formed r -> well_formed (PyList [l; r]).

(** The characters at the leaves, left to right. *)
Fixpoint leaves (t : tree) : list char :=
  match t with
  | Chr c => [c]
  | PyList items => flat_map leaves items
  end.

(** The leaves of all nodes held by a [node_list]. *)
Definition all_leaves (node_list : list entry) : list char :=
  flat_map (fun e => leaves (e_node e)) node_list.

(** The root-to-leaf paths below [index], left to right: [0] to the
    first child, [1] to the second. *)
Fixpoint paths (t : tree) (index : str) : list (char * str) :=
  match t with
  | Chr c => [(c, index)]
  | PyList (l :: r :: _) =>
      paths l (index ++ [bit0]) ++ paths r (index ++ [bit1])
  | PyList _ => []
  end.

(** Writing a list of assignments to a dictionary, in order. *)
Definition write_all (assignments : list (char * str)) (d : code_table)
    : code_table :=
  fold_left (fun d kv => cset d (fst kv) (snd kv)) assignments d.

(** What [node_reducer] maintains about [node_list]: every node is
    well formed, no character occurs at two leaves, and the character of
    every tuple is a leaf of its node. *)
Definition node_list_inv (node_list : list entry) : Prop :=
  Forall (fun e => well_formed (e_node e)) node_list /\
  NoDup (all_leaves node_list) /\
  Forall (fun e => In (e_char e) (leaves (e_node e))) node_list.

(** ** Codes and their cost *)

Definition is_bit (c : char) : Prop := c = bit0 \/ c = bit1.

Definition flip (c : char) : char := if N.eqb c bit0 then bit1 else bit0.

(** Sum of [h] over a list of characters. *)
Fixpoint zsum (h : char -> Z) (S : list char) : Z :=
  match S with
  | [] => 0%Z
  | c :: S' => (h c + zsum h S')%Z
  end.

(** Total code length of the symbols [S] under the code [C], each
    symbol weighted by [f]. *)
Definition code_cost (f : char -> Z) (C : char -> str) (S : list char) : Z :=
  zsum (fun c => f c * Z.of_nat (List.length (C c)))%Z S.

(** No code of a symbol of [S] is a prefix of the code of another. *)
Definition prefix_free_on (S : list char) (C : char -> str) : Prop :=
  forall x y, In x S -> In y S -> x <> y -> ~ is_prefix (C x) (C y).

Definition binary_on (S : list char) (C : char -> str) : Prop :=
  forall x, In x S -> Forall is_bit (C x).

(** The transposition of [u] and [v]. *)
Definition swp (u v c : char) : char :=
  if N.eqb c u then v else if N.eqb c v then u else c.

(** Total length of a list of paths, each weighted by [f] of its
    character. *)
Fixpoint paths_cost (f : char -> Z) (ps : list (char * str)) : Z :=
  match ps with
  | [] => 0%Z
  | (c, w) :: ps' => (f c * Z.of_nat (List.length w) + paths_cost f ps')%Z
  end.

(** ** The merge loop seen from its first step *)

(** The leaf [a] replaced by the two-element list [[a, b]]. *)
Fixpoint split_leaf (a b : char) (t : tree) : tree :=
  match t with
  | Chr c => if N.eqb c a then PyList [Chr a; Chr b] else Chr c
  | PyList items => PyList (map (split_leaf a b) items)
  end.

Definition split_entry (a b : char) (e : entry) : entry :=
  (e_freq e, e_char e, split_leaf a b (e_node e)).

(** A [node_list] in increasing order of frequency. *)
Definition freq_sorted (node_list : list entry) : Prop :=
  StronglySorted (fun x y => (e_freq x <= e_freq y)%Z) node_list.

(** A [node_list] of leaves, as [node_reducer] builds it before merging. *)
Definition leaf_list (node_list : list entry) : Prop :=
  Forall (fun e => e_node e = Chr (e_char e)) node_list.

(** The weights after merging [b] into [a]. *)
Definition merged (f : char -> Z) (a b : char) : char -> Z :=
  fun c => if N.eqb c a then (f a + f b)%Z else f c.

(** ** Code tables *)

(** The code a table gives to a symbol (empty when it has none). *)
Definition code_of (t : code_table) (c : char) : str :=
  match cget t c with Some w => w | None => [] end.

(** Total code length of a table, each symbol weighted by its count in
    the frequency table. *)
Fixpoint weighted_length (freqs : freq_table) (t : code_table) : Z :=
  match freqs with
  | [] => 0%Z
  | (c, n) :: freqs' =>
      (n * Z.of_nat (List.length (code_of t c)) + weighted_length freqs' t)%Z
  end.

(** [t] is a binary prefix code for [symbols]: every symbol has a
    non-empty code of bits, and no code of a symbol is a prefix of the
    code of another symbol. *)
Definition prefix_code_on (symbols : list char) (t : code_table) : Prop :=
  (forall c, In c symbols ->
     exists w, cget t c = Some w /\ w <> [] /\ Forall is_bit w) /\
  (forall c1 c2, In c1 symbols -> In c2 symbols -> c1 <> c2 ->
     ~ is_prefix (code_of t c1) (code_of t c2)).

(** The weight a frequency table gives to a symbol. *)
Definition freq_of (freqs : freq_table) (c : char) : Z :=
  match cget freqs c with Some n => n | None => 0%Z end.

(** [t] is a binary prefix code for its own keys. *)
Definition prefix_code (t : code_table) : Prop := prefix_code_on (keys t) t.

(** ** The round trip *)

(** [huffman_decoding(huffman_encoding(s), huffman_code(s))]; the
    arguments are evaluated left to right. *)
Definition decode_encode (original_string : str) : M str :=
  encoded_string <~ huffman_encoding original_string ;;
  char_code <~ huffman_code original_string ;;
  fun st => (huffman_decoding encoded_string (deref char_code st), st).

(** A module state in which [code_dict] holds no symbol foreign to [s]
    (in particular the state right after import, where it is empty). *)
Definition clean_for (s : str) (code_dict : code_table) : Prop :=
  NoDup (keys code_dict) /\ forall c, In c (keys code_dict) -> In c s.

(** ** Sums over a frequency table *)

(** Sum of [n * h c] over the entries [(c, n)] of a frequency table. *)
Fixpoint wsum (h : char -> Z) (freqs : freq_table) : Z :=
  match freqs with
  | [] => 0%Z
  | (c, n) :: freqs' => (n * h c + wsum h freqs')%Z
  end.

(** Sum of the counts of a frequency table. *)
Definition total_count (freqs : freq_table) : Z := wsum (fun _ => 1%Z) freqs.

(** * The size reports *)

(** [len(x)] *)
Definition py_len {A : Type} (x : list A) : Z := Z.of_nat (List.length x).

(** [str(n)] for an integer [n]. *)
Definition str_of_int (n : Z) : str :=
  py (NilZero.string_of_int (Z.to_int n)).

(** [f"{n} bits"] *)
Definition bits_label (n : Z) : str := str_of_int n ++ py " bits".

(** ** [bits_without_encoding] *)

Definition bits_without_encoding (original_string : str) : str :=
  bits_label (py_len original_string * 8).

(** ** [bits_after_encoding] *)

(** Outcome of a call of [bits_after_encoding]: besides the exceptions
    of the codec, Python raises [RuntimeError] when a dictionary changes
    size while a [for] loop iterates over it. *)
Inductive outcome (A : Type) : Type :=
| Returned (a : A)
| Raised (e : exn)
| RaisedRuntimeError
| Unfinished.

Arguments Raised {A} e.
Arguments RaisedRuntimeError {A}.
Arguments Unfinished {A}.

Definition R (A : Type) : Type := code_table -> outcome A * code_table.

(** A call of one of the codec's functions. *)
Definition call {A : Type} (m : M A) : R A :=
  fun st =>
    match m st with
    | (Ok a, st') => (Returned a, st')
    | (Raise e, st') => (Raised e, st')
    | (OutOfFuel, st') => (Unfinished, st')
    end.

Definition rret {A : Type} (a : A) : R A := fun st => (Returned a, st).

Definition rbind {A B : Type} (m : R A) (k : A -> R B) : R B :=
  fun st =>
    match m st with
    | (Returned a, st') => k a st'
    | (Raised e, st') => (Raised e, st')
    | (RaisedRuntimeError, st') => (RaisedRuntimeError, st')
    | (Unfinished, st') => (Unfinished, st')
    end.

Notation "x <~~ m ;; k" := (rbind m (fun x => k))
  (at level 61, m at next level, right associativity).

(** [d[c]] for the dictionary [d] a reference denotes. *)
Definition ref_index (d : dict_ref) (c : char) : R str :=
  fun st =>
    match cget (deref d st) c with
    | Some w => (Returned w, st)
    | None => (Raised KeyError, st)
    end.

(** The loop [for char in d: count += len(huffman_code(original_string)[char])]
    over the dictionary [d] the first call returned.  The iterator
    remembers the size [size] the dictionary had when the loop started;
    every step first compares it with the present size, then takes the
    key at the next position, here [size - remaining], or stops when
    there is none. *)
Fixpoint count_loop (remaining : nat) (original_string : str) (d : dict_ref)
    (size : nat) (count : Z) : R Z :=
  fun st =>
    if negb (Nat.eqb (List.length (deref d st)) size)
    then (RaisedRuntimeError, st)
    else
      match remaining with
      | O => (Returned count, st)
      | S remaining' =>
          match nth_error (keys (deref d st)) (size - remaining) with
          | None => (Returned count, st)
          | Some c =>
              (char_code <~~ call (huffman_code original_string) ;;
               code <~~ ref_index char_code c ;;
               count_loop remaining' original_string d size
                 (count + py_len code)) st
          end
      end.

Definition bits_after_encoding (original_string : str) : R str :=
  d <~~ call (huffman_code original_string) ;;
  fun st =>
    let size := List.length (deref d st) in
    (count <~~ count_loop size original_string d size 0 ;;
     char_code <~~ call (huffman_code original_string) ;;
     fun st' =>
       let n := py_len (deref char_code st') in
       (encoded_string <~~ call (huffman_encoding original_string) ;;
        rret (bits_label (n * 8 + count + py_len encoded_string))) st') st.
(** * Properties *)

(** ** The functions on concrete inputs *)

Example letter_distribution_abacabad :
  letter_distribution (py "abacabad") =
  [(chr "a", 4%Z); (chr "b", 2%Z); (chr "c", 1%Z); (chr "d", 1%Z)].
Proof. reflexivity. Qed.

Example node_reducer_abacabad :
  node_reducer (letter_distribution (py "abacabad")) =
  Ok (PyList [Chr (chr "a");
              PyList [Chr (chr "b");
                      PyList [Chr (chr "c"); Chr (chr "d")]]]).
Proof. reflexivity. Qed.

Example huffman_code_abacabad :
  huffman_code (py "abacabad") [] =
  (Ok ModuleCodeDict,
   [(chr "a", py "0"); (chr "b", py "10"); (chr "c", py "110");
    (chr "d", py "111")]).
Proof. reflexivity. Qed.

Example huffman_encoding_abacabad :
  fst (huffman_encoding (py "abacabad") []) = Ok (py "01001100100111").
Proof. reflexivity. Qed.

Example huffman_decoding_abacabad :
  huffman_decoding (py "01001100100111")
    [(chr "a", py "0"); (chr "b", py "10"); (chr "c", py "110");
     (chr "d", py "111")] = Ok (py "abacabad").
Proof. reflexivity. Qed.

(** Tuples with equal frequency and character compare their nodes, and
    a character against a list is a [TypeError]. *)
Example tuple_lt_type_error :
  tuple_lt (2%Z, chr "a", Chr (chr "a"))
           (2%Z, chr "a", PyList [Chr (chr "a"); Chr (chr "b")]) =
  Raise TypeError.
Proof. reflexivity. Qed.

(** [code_assigner] fails on lists that are not pairs. *)
Example code_assigner_malformed :
  fst (code_assigner (PyList []) [] []) = Raise IndexError /\
  fst (code_assigner (PyList [PyList [Chr (chr "a")]]) [] []) = Raise TypeError /\
  fst (code_assigner (PyList [Chr (chr "a"); PyList []]) [] []) = Raise IndexError.
Proof. repeat split; reflexivity. Qed.


(** ** Equality tests and dictionaries *)

Lemma str_eqb_eq (a b : str) : str_eqb a b = true <-> a = b.
Proof.
  revert b; induction a as [|x a IH]; intros [|y b]; simpl; split;
    try congruence; try reflexivity.
  - intros H. apply andb_true_iff in H as [H1 H2].
    apply N.eqb_eq in H1. apply IH in H2. congruence.
  - intros H. injection H as -> ->. apply andb_true_iff. split.
    + apply N.eqb_refl.
    + now apply IH.
Qed.

Lemma str_eqb_refl (a : str) : str_eqb a a = true.
Proof. now apply str_eqb_eq. Qed.

Lemma str_eqb_neq (a b : str) : str_eqb a b = false <-> a <> b.
Proof.
  split.
  - intros H E. apply str_eqb_eq in E. congruence.
  - intros H. destruct (str_eqb a b) eqn:E; [|reflexivity].
    apply str_eqb_eq in E. contradiction.
Qed.

Section DictFacts.
Variables K V : Type.
Variable eqb : K -> K -> bool.
Hypothesis eqb_eq : forall a b, eqb a b = true <-> a = b.

Lemma eqb_refl' (a : K) : eqb a a = true.
Proof. now apply eqb_eq. Qed.

Lemma eqb_false (a b : K) : a <> b -> eqb a b = false.
Proof.
  intros H. destruct (eqb a b) eqn:E; [|reflexivity].
  apply eqb_eq in E. contradiction.
Qed.

Lemma dict_get_set_same (d : dict K V) k v :
  dict_get eqb (dict_set eqb d k v) k = Some v.
Proof.
  induction d as [|[k' v'] d IH]; simpl.
  - now rewrite eqb_refl'.
  - destruct (eqb k k') eqn:E; simpl.
    + now rewrite eqb_refl'.
    + now rewrite E.
Qed.

Lemma dict_get_set_other (d : dict K V) k k' v :
  k' <> k -> dict_get eqb (dict_set eqb d k v) k' = dict_get eqb d k'.
Proof.
  intros N. induction d as [|[k0 v0] d IH]; simpl.
  - now rewrite eqb_false.
  - destruct (eqb k k0) eqn:E; simpl.
    + apply eqb_eq in E. subst k0. now rewrite !eqb_false.
    + now rewrite IH.
Qed.

Lemma dict_get_None (d : dict K V) k :
  dict_get eqb d k = None <-> ~ In k (keys d).
Proof.
  induction d as [|[k0 v0] d IH]; simpl.
  - tauto.
  - destruct (eqb k k0) eqn:E.
    + apply eqb_eq in E. subst. split; [discriminate | tauto].
    + rewrite IH. split; [|tauto].
      intros H [H1|H1]; [|tauto]. subst.
      rewrite eqb_refl' in E. discriminate.
Qed.

Lemma dict_get_In (d : dict K V) k v :
  dict_get eqb d k = Some v -> In (k, v) d.
Proof.
  induction d as [|[k0 v0] d IH]; simpl; [discriminate|].
  destruct (eqb k k0) eqn:E.
  - apply eqb_eq in E. intros H. injection H as ->. left. congruence.
  - auto.
Qed.

Lemma In_dict_get (d : dict K V) k v :
  NoDup (keys d) -> In (k, v) d -> dict_get eqb d k = Some v.
Proof.
  induction d as [|[k0 v0] d IH]; simpl; [tauto|].
  intros ND [H|H].
  - injection H as -> ->. now rewrite eqb_refl'.
  - inversion ND as [|? ? Hn ND']; subst.
    rewrite eqb_false.
    + auto.
    + intros ->. apply Hn. change k0 with (fst (k0, v)).
      now apply in_map.
Qed.

Lemma keys_set_in (d : dict K V) k v :
  In k (keys d) -> keys (dict_set eqb d k v) = keys d.
Proof.
  induction d as [|[k0 v0] d IH]; simpl; [tauto|].
  intros H. destruct (eqb k k0) eqn:E; simpl.
  - apply eqb_eq in E. now subst.
  - f_equal. apply IH. destruct H as [H|H]; [|exact H].
    subst. rewrite eqb_refl' in E. discriminate.
Qed.

Lemma keys_set_new (d : dict K V) k v :
  ~ In k (keys d) -> dict_set eqb d k v = d ++ [(k, v)].
Proof.
  induction d as [|[k0 v0] d IH]; simpl; [reflexivity|].
  intros H. simpl in H. rewrite eqb_false by (intros ->; tauto).
  f_equal. apply IH. tauto.
Qed.

Lemma keys_set_incl (d : dict K V) k v x :
  In x (keys (dict_set eqb d k v)) <-> x = k \/ In x (keys d).
Proof.
  induction d as [|[k0 v0] d IH]; simpl.
  - intuition congruence.
  - destruct (eqb k k0) eqn:E; simpl.
    + apply eqb_eq in E. subst. intuition congruence.
    + rewrite IH. intuition congruence.
Qed.

Lemma keys_set_NoDup (d : dict K V) k v :
  NoDup (keys d) -> NoDup (keys (dict_set eqb d k v)).
Proof.
  induction d as [|[k0 v0] d IH]; simpl; intros ND.
  - constructor; [simpl; tauto | constructor].
  - inversion ND as [|? ? Hn ND']; subst.
    destruct (eqb k k0) eqn:E; simpl.
    + apply eqb_eq in E. subst. now constructor.
    + constructor; [|auto].
      rewrite keys_set_incl. intros [H|H]; [|tauto].
      subst. rewrite eqb_refl' in E. discriminate.
Qed.
End DictFacts.


(** ** Prefixes *)

Lemma is_prefix_nil_r (p : str) : is_prefix p [] -> p = [].
Proof.
  intros [q H]. symmetry in H. now apply app_eq_nil in H.
Qed.

Lemma is_prefix_trans (p q w : str) :
  is_prefix p q -> is_prefix q w -> is_prefix p w.
Proof. intros [x ->] [y ->]. exists (x ++ y). now rewrite app_assoc. Qed.

Lemma is_prefix_snoc (p w : str) (x : char) :
  is_prefix p (w ++ [x]) -> p = w ++ [x] \/ is_prefix p w.
Proof.
  intros [q H]. destruct (list_eq_dec N.eq_dec q []) as [->|Hq].
  - left. now rewrite app_nil_r in H.
  - right. destruct (exists_last Hq) as (q' & y & ->).
    rewrite app_assoc in H. apply app_inj_tail in H as [H _].
    now exists q'.
Qed.

(** ** Decoding *)


Lemma reverse_dict_fold (t : code_table) (acc : dict str char) (w : str) :
  sget (fold_left (fun rev kv => sset rev (snd kv) (fst kv)) t acc) w =
  match code_owner t w with
  | Some c => Some c
  | None => sget acc w
  end.
Proof.
  revert acc; induction t as [|[c v] t IH]; intros acc; simpl.
  - reflexivity.
  - rewrite IH. destruct (code_owner t w); [reflexivity|].
    unfold sget, sset. destruct (str_eqb v w) eqn:E.
    + apply str_eqb_eq in E. subst.
      apply dict_get_set_same. apply str_eqb_eq.
    + apply dict_get_set_other; [apply str_eqb_eq|].
      apply str_eqb_neq in E. congruence.
Qed.

Lemma reverse_dict_get (t : code_table) (w : str) :
  sget (reverse_dict t) w = code_owner t w.
Proof.
  unfold reverse_dict. rewrite reverse_dict_fold.
  now destruct (code_owner t w).
Qed.

Lemma code_owner_In (t : code_table) (w : str) (c : char) :
  code_owner t w = Some c -> In (c, w) t.
Proof.
  induction t as [|[c0 v] t IH]; simpl; [discriminate|].
  destruct (code_owner t w) as [c'|].
  - intros H. injection H as ->. right. now apply IH.
  - destruct (str_eqb v w) eqn:E; [|discriminate].
    apply str_eqb_eq in E. intros H. injection H as ->. left. congruence.
Qed.

Lemma In_code_owner (t : code_table) (w : str) (c : char) :
  In (c, w) t -> exists c', code_owner t w = Some c'.
Proof.
  induction t as [|[c0 v] t IH]; simpl; [tauto|].
  intros [H|H].
  - injection H as -> ->. destruct (code_owner t w); eauto.
    rewrite str_eqb_refl. eauto.
  - destruct (IH H) as [c' ->]. eauto.
Qed.


Lemma unmatched_nil (t : code_table) : unmatched t [].
Proof. intros p Hp H. apply is_prefix_nil_r in H. contradiction. Qed.

Lemma decode_loop_spec (t : code_table) (enc dec cur : str) :
  unmatched t cur ->
  exists toks rest,
    decode_loop (reverse_dict t) enc dec cur = Ok (dec ++ map snd toks, rest) /\
    cur ++ enc = List.concat (map fst toks) ++ rest /\
    Forall (greedy_token t) toks /\
    unmatched t rest.
Proof.
  revert dec cur; induction enc as [|bit enc IH]; intros dec cur Hcur; simpl.
  - exists [], cur. simpl. rewrite !app_nil_r. auto.
  - unfold dict_mem, dict_index.
    change (dict_get str_eqb (reverse_dict t) (cur ++ [bit]))
      with (sget (reverse_dict t) (cur ++ [bit])).
    rewrite reverse_dict_get.
    destruct (code_owner t (cur ++ [bit])) as [c|] eqn:E; simpl.
    + destruct (IH (dec ++ [c]) [] (unmatched_nil t))
        as (toks & rest & H1 & H2 & H3 & H4).
      exists ((cur ++ [bit], c) :: toks), rest. simpl.
      rewrite H1, <- !app_assoc. simpl in *. rewrite <- H2.
      repeat split; auto.
      constructor; [|exact H3]. repeat split; simpl; auto.
      * now destruct cur.
      * intros p Hp Hpre Hne. apply is_prefix_snoc in Hpre as [->|Hpre];
          [contradiction | now apply Hcur].
    + assert (Hcur' : unmatched t (cur ++ [bit])).
      { intros p Hp Hpre. apply is_prefix_snoc in Hpre as [->|Hpre];
          [exact E | now apply Hcur]. }
      destruct (IH dec (cur ++ [bit]) Hcur')
        as (toks & rest & H1 & H2 & H3 & H4).
      exists toks, rest. rewrite <- app_assoc in H2. auto.
Qed.

(** Scanning one greedy token from the accumulator [w1] emits its symbol
    and clears the accumulator. *)
Lemma decode_loop_token (t : code_table) (c : char) (w2 w1 enc dec : str) :
  w2 <> [] ->
  code_owner t (w1 ++ w2) = Some c ->
  (forall p, p <> [] -> is_prefix p (w1 ++ w2) -> p <> w1 ++ w2 ->
             code_owner t p = None) ->
  decode_loop (reverse_dict t) (w2 ++ enc) dec w1 =
  decode_loop (reverse_dict t) enc (dec ++ [c]) [].
Proof.
  revert w1; induction w2 as [|b w2 IH]; intros w1 Hne Hc Hp; [congruence|].
  simpl. unfold dict_mem, dict_index.
  change (dict_get str_eqb (reverse_dict t) (w1 ++ [b]))
    with (sget (reverse_dict t) (w1 ++ [b])).
  rewrite reverse_dict_get.
  destruct w2 as [|b' w2].
  - rewrite Hc. reflexivity.
  - rewrite (Hp (w1 ++ [b])).
    + apply IH; [discriminate | now rewrite <- app_assoc |].
      rewrite <- app_assoc. exact Hp.
    + now destruct w1.
    + exists (b' :: w2). now rewrite <- app_assoc.
    + intros H. change (b :: b' :: w2) with ([b] ++ b' :: w2) in H.
      rewrite app_assoc in H.
      rewrite <- (app_nil_r (w1 ++ [b])) in H at 1.
      apply app_inv_head in H. discriminate.
Qed.

Lemma decode_loop_tokens (t : code_table) (toks : list (str * char))
    (enc dec : str) :
  Forall (greedy_token t) toks ->
  decode_loop (reverse_dict t) (List.concat (map fst toks) ++ enc) dec [] =
  decode_loop (reverse_dict t) enc (dec ++ map snd toks) [].
Proof.
  revert dec; induction toks as [|[w c] toks IH]; intros dec H; simpl.
  - now rewrite app_nil_r.
  - inversion H as [|? ? (H1 & H2 & H3) H']; subst. simpl in *.
    rewrite <- app_assoc.
    rewrite (@decode_loop_token t c w [] _ dec H1 H2 H3).
    rewrite IH by assumption. now rewrite <- app_assoc.
Qed.

Lemma unmatched_prefix (t : code_table) (p w : str) :
  is_prefix p w -> unmatched t w -> unmatched t p.
Proof.
  intros Hpw Hw q Hq Hqp. apply Hw; [exact Hq|].
  eapply is_prefix_trans; eassumption.
Qed.

(** Bits that never complete a code only grow the accumulator. *)
Lemma decode_loop_unmatched (t : code_table) (enc dec cur : str) :
  unmatched t (cur ++ enc) ->
  decode_loop (reverse_dict t) enc dec cur = Ok (dec, cur ++ enc).
Proof.
  revert cur; induction enc as [|bit enc IH]; intros cur H; simpl.
  - now rewrite app_nil_r.
  - unfold dict_mem.
    change (dict_get str_eqb (reverse_dict t) (cur ++ [bit]))
      with (sget (reverse_dict t) (cur ++ [bit])).
    rewrite reverse_dict_get, (H (cur ++ [bit])).
    + rewrite IH; rewrite <- app_assoc; [reflexivity | exact H].
    + now destruct cur.
    + exists enc. now rewrite <- app_assoc.
Qed.

(** [C10] [huffman_decoding] is total and never raises.  Its result is
    read off a greedy split of the input: the input is a sequence of
    tokens followed by a rest; every token is a non-empty code of the
    table none of whose shorter non-empty prefixes is a code, and it
    contributes the symbol owning that code; no non-empty prefix of the
    rest is a code, and the rest contributes nothing.  So the result is
    the decoding of the tokens alone, and that prefix of the input is
    the longest one the scan consumes completely: on the tokens followed
    by any part [r] of the rest the scan ends with [r] in the
    accumulator. *)
Theorem huffman_decoding_greedy (encoded_string : str) (code_dict : code_table) :
  exists (toks : list (str * char)) (rest : str),
    huffman_decoding encoded_string code_dict = Ok (map snd toks) /\
    encoded_string = List.concat (map fst toks) ++ rest /\
    Forall (greedy_token code_dict) toks /\
    unmatched code_dict rest /\
    huffman_decoding (List.concat (map fst toks)) code_dict =
      Ok (map snd toks) /\
    forall r, is_prefix r rest ->
      decode_loop (reverse_dict code_dict) (List.concat (map fst toks) ++ r)
        [] [] = Ok (map snd toks, r).
Proof.
  destruct (decode_loop_spec encoded_string [] (unmatched_nil code_dict))
    as (toks & rest & H1 & H2 & H3 & H4).
  exists toks, rest. unfold huffman_decoding. rewrite H1. simpl.
  split; [reflexivity|]. split; [exact H2|]. split; [exact H3|].
  split; [exact H4|].
  assert (H5 : forall r : str, is_prefix r rest ->
            decode_loop (reverse_dict code_dict)
              (List.concat (map fst toks) ++ r) [] [] = Ok (map snd toks, r)).
  { intros r Hr. rewrite decode_loop_tokens by exact H3. simpl.
    apply (@decode_loop_unmatched code_dict r (map snd toks) []).
    simpl. eapply unmatched_prefix; eassumption. }
  split; [|exact H5].
  specialize (H5 [] (ex_intro _ rest eq_refl)).
  rewrite app_nil_r in H5.
  exact (f_equal (fun x => r <- x ;; Ok (fst r)) H5).
Qed.


(** [C3] (as amended) When the scan ends with a non-empty accumulator
    that never matched a code, [huffman_decoding] does not fail: it
    returns the symbols decoded so far, which is also what it returns on
    the input with that dangling accumulator cut off. *)
Theorem huffman_decoding_drops_tail (code_dict : code_table)
    (encoded_string dec cur : str) :
  decode_loop (reverse_dict code_dict) encoded_string [] [] = Ok (dec, cur) ->
  cur <> [] ->
  huffman_decoding encoded_string code_dict = Ok dec /\
  exists p, encoded_string = p ++ cur /\ huffman_decoding p code_dict = Ok dec.
Proof.
  intros H _. unfold huffman_decoding. rewrite H. split; [reflexivity|].
  destruct (decode_loop_spec encoded_string [] (unmatched_nil code_dict))
    as (toks & rest & H1 & H2 & H3 & _).
  rewrite H in H1. injection H1 as -> ->. simpl in H2.
  exists (List.concat (map fst toks)). split; [exact H2|].
  rewrite <- (app_nil_r (List.concat (map fst toks))).
  rewrite decode_loop_tokens by exact H3. reflexivity.
Qed.

Lemma huffman_decoding_drops_tail_witness :
  huffman_decoding (py "0101")
    [(chr "a", py "0"); (chr "b", py "10"); (chr "c", py "110");
     (chr "d", py "111")] = Ok (py "ab") /\
  exists p, py "0101" = p ++ py "1" /\
    huffman_decoding p
      [(chr "a", py "0"); (chr "b", py "10"); (chr "c", py "110");
       (chr "d", py "111")] = Ok (py "ab").
Proof.
  apply (@huffman_decoding_drops_tail
           [(chr "a", py "0"); (chr "b", py "10"); (chr "c", py "110");
            (chr "d", py "111")] (py "0101") (py "ab") (py "1")).
  - reflexivity.
  - discriminate.
Defined.

(** [C3] (as stated) fails: the encoding of ["ab"] under the table of
    ["abacabad"] followed by one stray bit ends the scan with the
    accumulator ["1"], which matches no code, and the call returns
    ["ab"] instead of failing. *)
Lemma truncated_stream_not_reported :
  let code_dict := [(chr "a", py "0"); (chr "b", py "10");
                    (chr "c", py "110"); (chr "d", py "111")] in
  decode_loop (reverse_dict code_dict) (py "0101") [] [] =
    Ok (py "ab", py "1") /\
  code_owner code_dict (py "1") = None /\
  huffman_decoding (py "0101") code_dict = Ok (py "ab") /\
  forall e, huffman_decoding (py "0101") code_dict <> Raise e.
Proof.
  repeat split; try reflexivity. intros e. discriminate.
Qed.

(** ** Empty and single-symbol inputs *)

(** [C4] The frequency table of the empty string is empty, and
    [node_reducer] on the empty table fails: the final [node_list[0]]
    raises [IndexError]. *)
Theorem empty_input_fails :
  letter_distribution (py "") = [] /\
  node_reducer [] = Raise IndexError.
Proof. split; reflexivity. Qed.

(** [C5] (as amended) [huffman_encoding] of the empty string builds the
    code table first, so it fails with the [IndexError] of
    [node_reducer], in every module state and without touching it. *)
Theorem huffman_encoding_empty_raises (code_dict : code_table) :
  huffman_encoding (py "") code_dict = (Raise IndexError, code_dict).
Proof. reflexivity. Qed.

(** [C5] (as stated) fails: the call on the empty string does not return
    the empty string. *)
Lemma huffman_encoding_empty_not_ok :
  fst (huffman_encoding (py "") []) <> Ok (py "") /\
  fst (huffman_encoding (py "") []) = Raise IndexError.
Proof. split; [discriminate | reflexivity]. Qed.

(** [C7] On ["aaaa"], in every module state: [huffman_code] returns the
    table [{a: "1"}], [huffman_encoding] returns ["1111"], and decoding
    ["1111"] with that table gives back ["aaaa"]. *)
Theorem single_symbol_aaaa (code_dict : code_table) :
  huffman_code (py "aaaa") code_dict =
    (Ok (Fresh [(chr "a", py "1")]), code_dict) /\
  huffman_encoding (py "aaaa") code_dict = (Ok (py "1111"), code_dict) /\
  huffman_decoding (py "1111") [(chr "a", py "1")] = Ok (py "aaaa").
Proof. repeat split; reflexivity. Qed.

(** ** Tree construction *)

Lemma Permutation_of_eq (A : Type) (l l' : list A) :
  l = l' -> Permutation l l'.
Proof. intros ->. reflexivity. Qed.

Lemma N_eqb_eq' (a b : char) : N.eqb a b = true <-> a = b.
Proof. apply N.eqb_eq. Qed.

Lemma tuple_lt_distinct (x y : entry) :
  e_char x <> e_char y -> exists b, tuple_lt x y = Ok b.
Proof.
  intros H. unfold tuple_lt.
  destruct (Z.eqb (e_freq x) (e_freq y)); [|eauto].
  destruct (N.eqb (e_char x) (e_char y)) eqn:E; [|eauto].
  apply N.eqb_eq in E. contradiction.
Qed.

Lemma tuple_lt_true_freq (x y : entry) :
  tuple_lt x y = Ok true -> e_char x <> e_char y ->
  (e_freq x <= e_freq y)%Z.
Proof.
  unfold tuple_lt. intros H Hne.
  destruct (Z.eqb (e_freq x) (e_freq y)) eqn:E.
  - apply Z.eqb_eq in E. lia.
  - injection H as H. apply Z.ltb_lt in H. lia.
Qed.

Lemma tuple_lt_false_freq (x y : entry) :
  tuple_lt x y = Ok false -> e_char x <> e_char y ->
  (e_freq y <= e_freq x)%Z.
Proof.
  unfold tuple_lt. intros H Hne.
  destruct (Z.eqb (e_freq x) (e_freq y)) eqn:E.
  - apply Z.eqb_eq in E. lia.
  - injection H as H. apply Z.ltb_ge in H. lia.
Qed.

(** Whatever elements a search compares the new tuple with, in either
    direction, the comparison returns a boolean as long as the character
    of the tuple is new to the list. *)
Lemma comparisons_safe (x : entry) (l : list entry) (y : entry) :
  ~ In (e_char x) (map e_char l) -> In y l ->
  (exists b, tuple_lt x y = Ok b) /\ (exists b, tuple_lt y x = Ok b).
Proof.
  intros Hnew Hy.
  assert (Hne : e_char x <> e_char y).
  { intros E. apply Hnew. rewrite E. now apply in_map. }
  split; apply tuple_lt_distinct; congruence.
Qed.

(** [SortedList.add] of a tuple whose character is new never compares
    nodes, so it succeeds; the tuple lands between two parts of the
    list. *)
Lemma sl_add_split (x : entry) (l : list entry) :
  ~ In (e_char x) (map e_char l) ->
  exists l1 l2,
    l = l1 ++ l2 /\ sl_add x l = Ok (l1 ++ x :: l2) /\
    Forall (fun y => tuple_lt x y = Ok false) l1 /\
    match l2 with [] => True | y :: _ => tuple_lt x y = Ok true end.
Proof.
  induction l as [|y l IH]; simpl; intros H.
  - exists [], []. auto.
  - destruct (@tuple_lt_distinct x y) as [b Hb]; [intuition congruence|].
    rewrite Hb. simpl. destruct b.
    + exists [], (y :: l). auto.
    + destruct IH as (l1 & l2 & -> & H2 & H3 & H4); [tauto|].
      rewrite H2. simpl. exists (y :: l1), l2. auto.
Qed.

Lemma sl_add_perm (x : entry) (l : list entry) :
  ~ In (e_char x) (map e_char l) ->
  exists l', sl_add x l = Ok l' /\ Permutation (x :: l) l'.
Proof.
  intros H. destruct (sl_add_split x l H) as (l1 & l2 & -> & H2 & _).
  eexists. split; [exact H2|]. apply Permutation_middle.
Qed.

Lemma all_leaves_perm (l l' : list entry) :
  Permutation l l' -> Permutation (all_leaves l) (all_leaves l').
Proof.
  unfold all_leaves. induction 1; simpl.
  - constructor.
  - now apply Permutation_app_head.
  - rewrite !app_assoc. apply Permutation_app_tail, Permutation_app_comm.
  - etransitivity; eassumption.
Qed.

Lemma node_list_inv_perm (l l' : list entry) :
  Permutation l l' -> node_list_inv l -> node_list_inv l'.
Proof.
  intros P (H1 & H2 & H3). repeat split.
  - eapply Permutation_Forall; eassumption.
  - eapply Permutation_NoDup; [apply all_leaves_perm|]; eassumption.
  - eapply Permutation_Forall; eassumption.
Qed.

Lemma node_list_inv_chars (l : list entry) :
  node_list_inv l -> NoDup (map e_char l).
Proof.
  intros (_ & H2 & H3). induction l as [|e l IH]; simpl; [constructor|].
  unfold all_leaves in H2. simpl in H2.
  inversion H3 as [|? ? He Hl]; subst.
  constructor.
  - intros Hin. apply in_map_iff in Hin as (e' & Heq & Hin).
    rewrite Forall_forall in Hl. specialize (Hl _ Hin).
    apply NoDup_app_remove_l in H2 as H2'.
    assert (In (e_char e) (flat_map (fun e => leaves (e_node e)) l)).
    { apply in_flat_map. exists e'. split; [exact Hin|]. now rewrite <- Heq. }
    clear - H2 He H.
    induction (leaves (e_node e)) as [|a ls IHl]; simpl in *; [tauto|].
    inversion H2 as [|? ? Hn Hd]; subst. destruct He as [->|He].
    + apply Hn. apply in_or_app. now right.
    + now apply IHl.
  - apply IH; [eapply NoDup_app_remove_l; exact H2 | exact Hl].
Qed.

Lemma node_list_inv_cons_leaf (n : Z) (c : char) (l : list entry) :
  node_list_inv l -> ~ In c (all_leaves l) ->
  node_list_inv ((n, c, Chr c) :: l).
Proof.
  intros (H1 & H2 & H3) Hc. repeat split.
  - constructor; [constructor | exact H1].
  - unfold all_leaves in *. simpl. now constructor.
  - constructor; [simpl; auto | exact H3].
Qed.

Lemma chars_in_all_leaves (l : list entry) (c : char) :
  node_list_inv l -> In c (map e_char l) -> In c (all_leaves l).
Proof.
  intros (_ & _ & H3) Hin. apply in_map_iff in Hin as (e & <- & Hin).
  apply in_flat_map. exists e. split; [exact Hin|].
  rewrite Forall_forall in H3. now apply H3.
Qed.

Lemma node_fill_ok (items : freq_table) (acc : list entry) :
  NoDup (keys items) -> node_list_inv acc ->
  (forall c, In c (keys items) -> ~ In c (all_leaves acc)) ->
  exists l, node_fill items acc = Ok l /\ node_list_inv l /\
            Permutation (all_leaves l) (keys items ++ all_leaves acc) /\
            Permutation (map (fun e => (e_char e, e_freq e)) l)
                        (items ++ map (fun e => (e_char e, e_freq e)) acc) /\
            (Forall (fun e => e_node e = Chr (e_char e)) acc ->
             Forall (fun e => e_node e = Chr (e_char e)) l).
Proof.
  revert acc; induction items as [|[c n] items IH]; intros acc ND Hinv Hd;
    simpl.
  - exists acc. split; [reflexivity|]. split; [exact Hinv|].
    split; [reflexivity|]. split; [reflexivity | auto].
  - inversion ND as [|? ? Hc ND']; subst.
    assert (Hnew : ~ In (e_char (n, c, Chr c)) (map e_char acc)).
    { intros Hin. apply (Hd c); [now left|].
      now apply chars_in_all_leaves. }
    destruct (sl_add_perm _ _ Hnew) as (l' & Hadd & Hperm).
    rewrite Hadd. simpl.
    assert (Hinv' : node_list_inv l').
    { eapply node_list_inv_perm; [exact Hperm|].
      apply node_list_inv_cons_leaf; [exact Hinv|].
      apply Hd. now left. }
    destruct (IH l' ND' Hinv') as (l & H1 & H2 & H3 & H4 & H5).
    { intros c' Hc' Hin.
      apply (Permutation_in _ (Permutation_sym (all_leaves_perm Hperm))) in Hin.
      unfold all_leaves in Hin. simpl in Hin. destruct Hin as [->|Hin].
      - contradiction.
      - apply (Hd c'); [now right | exact Hin]. }
    exists l. split; [exact H1|]. split; [exact H2|].
    split; [|split].
    + etransitivity; [exact H3|].
      etransitivity;
        [apply Permutation_app_head, Permutation_sym, all_leaves_perm, Hperm|].
      unfold all_leaves. simpl. apply Permutation_sym, Permutation_middle.
    + etransitivity; [exact H4|].
      etransitivity;
        [apply Permutation_app_head, Permutation_sym, Permutation_map, Hperm|].
      simpl. apply Permutation_sym, Permutation_middle.
    + intros Hacc. apply H5.
      eapply Permutation_Forall; [exact Hperm|]. now constructor.
Qed.

Lemma node_list_inv_merge (a b : entry) (rest : list entry) :
  node_list_inv (a :: b :: rest) ->
  node_list_inv ((e_freq a + e_freq b, e_char a,
                  PyList [e_node a; e_node b])%Z :: rest) /\
  all_leaves ((e_freq a + e_freq b, e_char a,
               PyList [e_node a; e_node b])%Z :: rest) =
  all_leaves (a :: b :: rest).
Proof.
  intros (H1 & H2 & H3).
  assert (E : all_leaves ((e_freq a + e_freq b, e_char a,
                           PyList [e_node a; e_node b])%Z :: rest) =
              all_leaves (a :: b :: rest)).
  { unfold all_leaves. simpl. now rewrite app_nil_r, app_assoc. }
  split; [|exact E].
  inversion H1 as [|? ? Ha H1']; subst. inversion H1' as [|? ? Hb H1'']; subst.
  inversion H3 as [|? ? Hca H3']; subst. inversion H3' as [|? ? Hcb H3'']; subst.
  split; [|split].
  - constructor; [now constructor | exact H1''].
  - now rewrite E.
  - constructor; [|exact H3'']. simpl. apply in_or_app. now left.
Qed.

(** The [while] loop runs [len(node_list) - 1] times and leaves one
    tuple. *)
Lemma node_merge_ok (fuel : nat) (l : list entry) :
  (List.length l <= S fuel)%nat -> l <> [] -> node_list_inv l ->
  exists e, node_merge fuel l = Ok [e] /\ node_list_inv [e] /\
            Permutation (all_leaves [e]) (all_leaves l).
Proof.
  revert l; induction fuel as [|fuel IH]; intros l Hlen Hne Hinv.
  - destruct l as [|a [|b rest]]; simpl in *; try congruence; try lia.
    exists a. auto.
  - destruct l as [|a [|b rest]]; [congruence | exists a; auto |].
    pose proof (node_list_inv_chars Hinv) as Hnd.
    destruct (node_list_inv_merge Hinv) as [Hinv' Hleaves].
    cbn [node_merge].
    set (x := ((e_freq a + e_freq b)%Z, e_char a,
               PyList [e_node a; e_node b])) in *.
    assert (Hnew : ~ In (e_char x) (map e_char rest)).
    { inversion Hnd as [|? ? Hn _]; subst. simpl in *. tauto. }
    destruct (sl_add_perm _ _ Hnew) as (l' & Hadd & Hperm).
    rewrite Hadd. cbn [bind].
    destruct (IH l') as (e & H1 & H2 & H3).
    + apply Permutation_length in Hperm. simpl in Hperm, Hlen. lia.
    + intros ->. apply Permutation_sym, Permutation_nil in Hperm.
      discriminate.
    + eapply node_list_inv_perm; eassumption.
    + exists e. split; [exact H1|]. split; [exact H2|].
      etransitivity; [exact H3|].
      etransitivity; [apply Permutation_sym, all_leaves_perm, Hperm|].
      apply Permutation_of_eq, Hleaves.
Qed.

Lemma node_list_inv_nil : node_list_inv [].
Proof. repeat split; constructor. Qed.

(** [node_reducer] on a dictionary with at least one key returns a
    well-formed tree whose leaves are the keys, each once. *)
Lemma node_reducer_ok (d : freq_table) :
  NoDup (keys d) -> d <> [] ->
  exists t, node_reducer d = Ok t /\ well_formed t /\
            Permutation (leaves t) (keys d).
Proof.
  intros ND Hne.
  destruct (@node_fill_ok d [] ND node_list_inv_nil)
    as (l & H1 & H2 & H3 & H4 & _); [auto|].
  simpl in H3. rewrite app_nil_r in H3, H4.
  assert (Hl : l <> []).
  { intros ->. apply Permutation_nil in H4. contradiction. }
  destruct (@node_merge_ok (List.length l) l) as (e & H5 & H6 & H7); auto.
  exists (e_node e). unfold node_reducer. rewrite H1. simpl.
  rewrite H5. simpl. split; [reflexivity|].
  destruct H6 as (H6 & _ & _). inversion H6; subst.
  split; [assumption|].
  unfold all_leaves in H7 at 1. simpl in H7. rewrite app_nil_r in H7.
  etransitivity; [exact H7 | exact H3].
Qed.

(** ** Code assignment *)

Lemma write_all_app (p1 p2 : list (char * str)) (d : code_table) :
  write_all (p1 ++ p2) d = write_all p2 (write_all p1 d).
Proof. apply fold_left_app. Qed.

(** The [else] branch of [code_assigner] on a two-element list. *)
Lemma code_assigner_pair (l r : tree) (index : str) (st : code_table) :
  code_assigner (PyList [l; r]) index st =
  (_ <~ match l with
        | PyList _ => _ <~ code_assigner l (index ++ [bit0]) ;; ret tt
        | Chr c => assign c (index ++ [bit0])
        end ;;
   _ <~ match r with
        | PyList _ => _ <~ code_assigner r (index ++ [bit1]) ;; ret tt
        | Chr c => assign c (index ++ [bit1])
        end ;;
   ret ModuleCodeDict) st.
Proof. destruct l, r; reflexivity. Qed.

(** On a well-formed tree [code_assigner] never fails.  A single
    character yields a new one-entry dictionary and leaves [code_dict]
    alone; a list writes every root-to-leaf path into [code_dict] and
    returns [code_dict] itself. *)
Lemma code_assigner_wf (t : tree) :
  well_formed t ->
  forall index st,
    code_assigner t index st =
    match t with
    | Chr c => (Ok (Fresh [(c, [bit1])]), st)
    | PyList _ => (Ok ModuleCodeDict, write_all (paths t index) st)
    end.
Proof.
  induction 1 as [c | l r Hl IHl Hr IHr]; intros index st; [reflexivity|].
  assert (Hstep : forall x idx s, well_formed x ->
            (forall index st, code_assigner x index st =
               match x with
               | Chr c => (Ok (Fresh [(c, [bit1])]), st)
               | PyList _ => (Ok ModuleCodeDict, write_all (paths x index) st)
               end) ->
            (match x with
             | PyList _ => _ <~ code_assigner x idx ;; ret tt
             | Chr c => assign c idx
             end) s = (Ok tt, write_all (paths x idx) s)).
  { intros x idx s Hx IHx. destruct x as [c|items].
    - reflexivity.
    - unfold mbind. rewrite IHx. reflexivity. }
  rewrite code_assigner_pair.
  unfold mbind at 1. rewrite (Hstep l _ st Hl IHl).
  unfold mbind at 1. rewrite (Hstep r _ _ Hr IHr).
  simpl. now rewrite write_all_app.
Qed.

Lemma paths_keys (t : tree) :
  well_formed t -> forall index, map fst (paths t index) = leaves t.
Proof.
  induction 1 as [c | l r Hl IHl Hr IHr]; intros index; simpl.
  - reflexivity.
  - now rewrite map_app, IHl, IHr, app_nil_r.
Qed.

(** [C9] For every frequency table with at least one key,
    [node_reducer] returns (no exception, and the loop ends within its
    [len(node_list)] iterations) a well-formed tree: every list in it
    has exactly two elements and the leaves are the keys of the table,
    each exactly once; and on that tree [code_assigner] returns without
    raising, whatever the index and the module state. *)
Theorem node_reducer_well_formed (letter_occurrence_dictionary : freq_table) :
  NoDup (keys letter_occurrence_dictionary) ->
  letter_occurrence_dictionary <> [] ->
  exists t,
    node_reducer letter_occurrence_dictionary = Ok t /\
    well_formed t /\
    Permutation (leaves t) (keys letter_occurrence_dictionary) /\
    NoDup (leaves t) /\
    forall index code_dict, exists r code_dict',
      code_assigner t index code_dict = (Ok r, code_dict').
Proof.
  intros ND Hne. destruct (node_reducer_ok ND Hne) as (t & H1 & H2 & H3).
  exists t. split; [exact H1|]. split; [exact H2|]. split; [exact H3|].
  split.
  - eapply Permutation_NoDup; [apply Permutation_sym; exact H3 | exact ND].
  - intros index st. rewrite (code_assigner_wf H2). destruct t; eauto.
Qed.

Lemma node_reducer_well_formed_witness :
  exists t,
    node_reducer [(chr "a", 4%Z); (chr "b", 2%Z); (chr "c", 1%Z)] = Ok t /\
    well_formed t /\
    Permutation (leaves t) [chr "a"; chr "b"; chr "c"] /\
    NoDup (leaves t) /\
    forall index code_dict, exists r code_dict',
      code_assigner t index code_dict = (Ok r, code_dict').
Proof.
  apply (@node_reducer_well_formed
           [(chr "a", 4%Z); (chr "b", 2%Z); (chr "c", 1%Z)]).
  - repeat constructor; simpl; intuition discriminate.
  - discriminate.
Defined.

(** ** Sums over symbols *)

Lemma zsum_app (h : char -> Z) (S1 S2 : list char) :
  zsum h (S1 ++ S2) = (zsum h S1 + zsum h S2)%Z.
Proof. induction S1 as [|c S1 IH]; simpl; lia. Qed.

Lemma zsum_perm (h : char -> Z) (S S' : list char) :
  Permutation S S' -> zsum h S = zsum h S'.
Proof. induction 1; simpl; lia. Qed.

Lemma zsum_ext (h h' : char -> Z) (S : list char) :
  (forall c, In c S -> h c = h' c) -> zsum h S = zsum h' S.
Proof.
  induction S as [|c S IH]; simpl; intros H; [reflexivity|].
  rewrite (H c), IH; auto.
Qed.

Lemma zsum_nonneg (h : char -> Z) (S : list char) :
  (forall c, In c S -> (0 <= h c)%Z) -> (0 <= zsum h S)%Z.
Proof.
  induction S as [|c S IH]; simpl; intros H; [lia|].
  specialize (H c (or_introl eq_refl)) as H0.
  assert (0 <= zsum h S)%Z by auto. lia.
Qed.

Lemma zsum_le (h h' : char -> Z) (S : list char) :
  (forall c, In c S -> (h c <= h' c)%Z) -> (zsum h S <= zsum h' S)%Z.
Proof.
  induction S as [|c S IH]; simpl; intros H; [lia|].
  specialize (H c (or_introl eq_refl)) as H0.
  assert (zsum h S <= zsum h' S)%Z by auto. lia.
Qed.

Lemma in_perm_cons (x : char) (S : list char) :
  In x S -> exists S', Permutation S (x :: S').
Proof.
  intros H. apply in_split in H as (l1 & l2 & ->).
  exists (l1 ++ l2). apply Permutation_sym, Permutation_middle.
Qed.

Lemma in_perm_cons2 (x y : char) (S : list char) :
  In x S -> In y S -> x <> y -> exists S', Permutation S (x :: y :: S').
Proof.
  intros Hx Hy Hne. destruct (@in_perm_cons x S Hx) as [S1 H1].
  assert (Hy1 : In y S1).
  { apply (Permutation_in _ H1) in Hy. destruct Hy; [congruence | auto]. }
  destruct (@in_perm_cons y S1 Hy1) as [S2 H2].
  exists S2. etransitivity; [exact H1|]. now constructor.
Qed.

(** ** Exchanging the codes of two symbols *)

Lemma swp_invol (u v c : char) : swp u v (swp u v c) = c.
Proof.
  unfold swp. destruct (N.eqb_spec c u) as [->|Hu].
  - rewrite N.eqb_refl. destruct (N.eqb_spec v u); congruence.
  - destruct (N.eqb_spec c v) as [->|Hv].
    + now rewrite N.eqb_refl.
    + destruct (N.eqb_spec c u); [congruence|].
      destruct (N.eqb_spec c v); congruence.
Qed.

Lemma swp_in (u v c : char) (S : list char) :
  In u S -> In v S -> In c S -> In (swp u v c) S.
Proof.
  intros Hu Hv Hc. unfold swp.
  destruct (N.eqb c u); [exact Hv|]. destruct (N.eqb c v); assumption.
Qed.

Lemma swp_other (u v c : char) : c <> u -> c <> v -> swp u v c = c.
Proof.
  intros Hu Hv. unfold swp.
  destruct (N.eqb_spec c u); [congruence|].
  destruct (N.eqb_spec c v); congruence.
Qed.

Lemma swp_l (u v : char) : swp u v u = v.
Proof. unfold swp. now rewrite N.eqb_refl. Qed.

Lemma swp_r (u v : char) : swp u v v = u.
Proof.
  unfold swp. destruct (N.eqb_spec v u); [congruence|].
  now rewrite N.eqb_refl.
Qed.

Lemma prefix_free_swp (S : list char) (C : char -> str) (u v : char) :
  prefix_free_on S C -> In u S -> In v S ->
  prefix_free_on S (fun c => C (swp u v c)).
Proof.
  intros H Hu Hv x y Hx Hy Hne. apply H.
  - now apply swp_in.
  - now apply swp_in.
  - intros E. apply Hne. rewrite <- (swp_invol u v x), E. apply swp_invol.
Qed.

Lemma binary_swp (S : list char) (C : char -> str) (u v : char) :
  binary_on S C -> In u S -> In v S ->
  binary_on S (fun c => C (swp u v c)).
Proof. intros H Hu Hv x Hx. apply H. now apply swp_in. Qed.

Lemma code_cost_swp (f : char -> Z) (C : char -> str) (S : list char)
    (u v : char) :
  NoDup S -> In u S -> In v S -> u <> v ->
  code_cost f (fun c => C (swp u v c)) S =
  (code_cost f C S +
   (f u - f v) * (Z.of_nat (List.length (C v)) - Z.of_nat (List.length (C u))))%Z.
Proof.
  intros ND Hu Hv Hne.
  destruct (@in_perm_cons2 u v S Hu Hv Hne) as [S' HP].
  unfold code_cost. rewrite !(zsum_perm _ HP). simpl.
  rewrite swp_l, swp_r.
  apply (Permutation_NoDup HP) in ND.
  inversion ND as [|? ? Hu' ND']; subst.
  inversion ND' as [|? ? Hv' _]; subst.
  rewrite (@zsum_ext (fun c => f c * Z.of_nat (List.length (C (swp u v c))))%Z
             (fun c => f c * Z.of_nat (List.length (C c)))%Z S').
  - ring.
  - intros c Hc. rewrite swp_other; [reflexivity| |].
    + intros ->. apply Hu'. now right.
    + intros ->. contradiction.
Qed.

(** Exchanging a lighter symbol with one that has a code at least as
    long does not increase the cost. *)
Lemma code_cost_swp_le (f : char -> Z) (C : char -> str) (S : list char)
    (u v : char) :
  NoDup S -> In u S -> In v S ->
  (f u <= f v)%Z -> (List.length (C u) <= List.length (C v))%nat ->
  (code_cost f (fun c => C (swp u v c)) S <= code_cost f C S)%Z.
Proof.
  intros ND Hu Hv Hf Hl. destruct (N.eq_dec u v) as [->|Hne].
  - apply Z.eq_le_incl. apply zsum_ext. intros c _.
    unfold swp. destruct (N.eqb_spec c v); [now subst | reflexivity].
  - rewrite code_cost_swp by assumption. nia.
Qed.

(** ** Reducing a prefix-free code by one symbol *)

Lemma is_prefix_refl (w : str) : is_prefix w w.
Proof. exists []. now rewrite app_nil_r. Qed.

Lemma is_prefix_app (p q : str) : is_prefix p (p ++ q).
Proof. now exists q. Qed.

Lemma short_ext (p w : str) :
  is_prefix p w -> (List.length w <= List.length p + 1)%nat ->
  w = p \/ exists g, w = p ++ [g].
Proof.
  intros [q ->] H. rewrite length_app in H.
  destruct q as [|g [|g' q]]; simpl in H; try lia.
  - left. now rewrite app_nil_r.
  - right. now exists g.
Qed.

Lemma bit_cases (b g : char) : is_bit b -> is_bit g -> g = b \/ g = flip b.
Proof. intros [->| ->] [->| ->]; simpl; auto. Qed.

Lemma flip_neq (b : char) : flip b <> b.
Proof. unfold flip. destruct (N.eqb_spec b bit0); subst; discriminate || congruence. Qed.

Lemma Forall_last_bit (p : str) (b : char) :
  Forall is_bit (p ++ [b]) -> Forall is_bit p /\ is_bit b.
Proof.
  intros H. apply Forall_app in H as [H1 H2]. split; [exact H1|].
  now inversion H2.
Qed.

(** A symbol [y] other than the owner of the longest code [p ++ [b]]
    cannot have a code that extends [p], unless it is the sibling
    [p ++ [flip b]]. *)
Lemma extends_is_sibling (S : list char) (C : char -> str) (x y : char)
    (p : str) (b : char) :
  prefix_free_on S C -> binary_on S C -> In x S -> In y S -> x <> y ->
  C x = p ++ [b] ->
  (List.length (C y) <= List.length p + 1)%nat ->
  is_prefix p (C y) -> C y = p ++ [flip b].
Proof.
  intros HP HB Hx Hy Hne Hcx Hlen Hpre.
  destruct (short_ext Hpre Hlen) as [E|[g E]].
  - exfalso. apply (HP y x Hy Hx); [congruence|].
    rewrite E, Hcx. apply is_prefix_app.
  - pose proof (HB x Hx) as Bx. rewrite Hcx in Bx.
    apply Forall_last_bit in Bx as [_ Bb].
    pose proof (HB y Hy) as By. rewrite E in By.
    apply Forall_last_bit in By as [_ Bg].
    destruct (bit_cases Bb Bg) as [->| ->]; [|exact E].
    exfalso. apply (HP y x Hy Hx); [congruence|].
    rewrite E, Hcx. apply is_prefix_refl.
Qed.

(** When the longest code has no sibling, dropping its last bit keeps
    the code prefix free and costs no more. *)
Lemma shorten_longest (S : list char) (C : char -> str) (x : char)
    (p : str) (b : char) :
  NoDup S -> prefix_free_on S C -> binary_on S C -> In x S ->
  C x = p ++ [b] ->
  (forall c, In c S -> (List.length (C c) <= List.length p + 1)%nat) ->
  (forall y, In y S -> C y <> p ++ [flip b]) ->
  let C1 := fun c => if N.eqb c x then p else C c in
  prefix_free_on S C1 /\ binary_on S C1 /\
  (zsum (fun c => Z.of_nat (List.length (C1 c))) S =
   zsum (fun c => Z.of_nat (List.length (C c))) S - 1)%Z /\
  forall f, (forall c, In c S -> (0 <= f c)%Z) ->
            (code_cost f C1 S <= code_cost f C S)%Z.
Proof.
  intros ND HP HB Hx Hcx Hmax Hsib C1.
  assert (Hother : forall c, c <> x -> C1 c = C c).
  { intros c Hc. unfold C1. destruct (N.eqb_spec c x); congruence. }
  assert (Hself : C1 x = p).
  { unfold C1. now rewrite N.eqb_refl. }
  split; [|split; [|split]].
  - intros u v Hu Hv Hne Hpre.
    destruct (N.eq_dec u x) as [->|Hux].
    + rewrite Hself, (Hother v) in Hpre by congruence.
      apply (Hsib v Hv).
      apply (@extends_is_sibling S C x v p b); auto.
    + rewrite (Hother u Hux) in Hpre.
      destruct (N.eq_dec v x) as [->|Hvx].
      * rewrite Hself in Hpre. apply (HP u x Hu Hx Hux).
        rewrite Hcx. eapply is_prefix_trans; [exact Hpre|].
        apply is_prefix_app.
      * rewrite (Hother v Hvx) in Hpre. now apply (HP u v).
  - intros u Hu. destruct (N.eq_dec u x) as [->|Hux].
    + rewrite Hself. pose proof (HB x Hx) as Bx. rewrite Hcx in Bx.
      now apply Forall_last_bit in Bx.
    + rewrite (Hother u Hux). now apply HB.
  - destruct (@in_perm_cons x S Hx) as [S' HS].
    rewrite !(zsum_perm _ HS). simpl. rewrite Hself, Hcx.
    apply (Permutation_NoDup HS) in ND. apply NoDup_cons_iff in ND as [Hn _].
    rewrite (@zsum_ext (fun c => Z.of_nat (List.length (C1 c)))
               (fun c => Z.of_nat (List.length (C c))) S').
    + rewrite length_app. simpl. lia.
    + intros c Hc. rewrite Hother; [reflexivity|]. intros ->. contradiction.
  - intros f Hf. apply zsum_le. intros c Hc.
    destruct (N.eq_dec c x) as [->|Hcx'].
    + rewrite Hself, Hcx, length_app. simpl.
      specialize (Hf x Hx). nia.
    + rewrite (Hother c Hcx'). lia.
Qed.

(** When the two lightest symbols [a] and [b] own sibling codes of
    maximal length, giving [a] their common parent and dropping [b]
    yields a prefix-free code for the merged weights, cheaper by
    [f a + f b]. *)
Lemma merge_siblings (f : char -> Z) (C : char -> str) (a b : char)
    (A : list char) (p : str) (bt : char) :
  NoDup (a :: b :: A) ->
  prefix_free_on (a :: b :: A) C -> binary_on (a :: b :: A) C ->
  C a = p ++ [bt] -> C b = p ++ [flip bt] ->
  (forall c, In c (a :: b :: A) ->
             (List.length (C c) <= List.length p + 1)%nat) ->
  let C' := fun c => if N.eqb c a then p else C c in
  let g := merged f a b in
  prefix_free_on (a :: A) C' /\ binary_on (a :: A) C' /\
  (code_cost g C' (a :: A) + f a + f b = code_cost f C (a :: b :: A))%Z.
Proof.
  intros ND HP HB Ha Hb Hmax C' g.
  apply NoDup_cons_iff in ND as [Hna ND'].
  apply NoDup_cons_iff in ND' as [Hnb _].
  assert (Hab : a <> b) by (intros ->; apply Hna; now left).
  assert (HinA : forall c, In c A -> c <> a /\ c <> b /\ In c (a :: b :: A)).
  { intros c Hc. repeat split.
    - intros ->. apply Hna. now right.
    - intros ->. contradiction.
    - now do 2 right. }
  assert (Hother : forall c, c <> a -> C' c = C c).
  { intros c Hc. unfold C'. destruct (N.eqb_spec c a); congruence. }
  assert (Hself : C' a = p).
  { unfold C'. now rewrite N.eqb_refl. }
  assert (Hfresh : forall c, In c A -> ~ is_prefix p (C c)).
  { intros c Hc Hpre. destruct (HinA c Hc) as (Hca & Hcb & Hin).
    assert (E : C c = p ++ [flip bt]).
    { apply (@extends_is_sibling (a :: b :: A) C a c p bt); auto.
      now left. }
    apply (HP c b Hin (or_intror (or_introl eq_refl)) Hcb).
    rewrite E, Hb. apply is_prefix_refl. }
  split; [|split].
  - intros u v Hu Hv Hne Hpre.
    destruct Hu as [<-|Hu]; destruct Hv as [<-|Hv]; try congruence.
    + destruct (HinA v Hv) as (Hva & _ & _).
      rewrite Hself, (Hother v Hva) in Hpre. now apply (Hfresh v).
    + destruct (HinA u Hu) as (Hua & _ & Hin).
      rewrite Hself, (Hother u Hua) in Hpre.
      apply (HP u a); auto; [now left|].
      rewrite Ha. eapply is_prefix_trans; [exact Hpre | apply is_prefix_app].
    + destruct (HinA u Hu) as (Hua & _ & Hin).
      destruct (HinA v Hv) as (Hva & _ & Hin').
      rewrite (Hother u Hua), (Hother v Hva) in Hpre. now apply (HP u v).
  - intros u [<-|Hu].
    + rewrite Hself. pose proof (HB a (or_introl eq_refl)) as Ba.
      rewrite Ha in Ba. now apply Forall_last_bit in Ba.
    + destruct (HinA u Hu) as (Hua & _ & Hin).
      rewrite (Hother u Hua). now apply HB.
  - unfold code_cost. simpl. rewrite Hself, Ha, Hb.
    unfold g at 1. unfold merged at 1. rewrite N.eqb_refl.
    rewrite (@zsum_ext (fun c => g c * Z.of_nat (List.length (C' c)))%Z
               (fun c => f c * Z.of_nat (List.length (C c)))%Z A).
    + rewrite !length_app. simpl. lia.
    + intros c Hc. destruct (HinA c Hc) as (Hca & _ & _).
      rewrite (Hother c Hca). unfold g, merged.
      destruct (N.eqb_spec c a); congruence.
Qed.

Lemma exists_longest (C : char -> str) (S : list char) :
  S <> [] ->
  exists x, In x S /\
    forall c, In c S -> (List.length (C c) <= List.length (C x))%nat.
Proof.
  induction S as [|c0 S IH]; [congruence|]. intros _.
  destruct S as [|c1 S].
  - exists c0. split; [now left|]. intros c [<-|[]]. lia.
  - destruct IH as (x & Hx & Hmax); [discriminate|].
    destruct (le_lt_dec (List.length (C c0)) (List.length (C x))) as [H|H].
    + exists x. split; [now right|]. intros c [<-|Hc]; auto.
    + exists c0. split; [now left|]. intros c [<-|Hc]; [lia|].
      specialize (Hmax c Hc). lia.
Qed.

(** Two sibling codes of maximal length can be handed to the two
    lightest symbols without increasing the cost. *)
Lemma siblings_to_lightest (f : char -> Z) (C : char -> str) (a b : char)
    (A : list char) (x y : char) (p : str) (bt : char) :
  let S := a :: b :: A in
  NoDup S ->
  (forall c, In c S -> (f a <= f c)%Z) ->
  (forall c, In c S -> c <> a -> (f b <= f c)%Z) ->
  prefix_free_on S C -> binary_on S C ->
  In x S -> In y S -> C x = p ++ [bt] -> C y = p ++ [flip bt] ->
  (forall c, In c S -> (List.length (C c) <= List.length p + 1)%nat) ->
  exists C2,
    prefix_free_on S C2 /\ binary_on S C2 /\
    C2 a = p ++ [bt] /\ C2 b = p ++ [flip bt] /\
    (forall c, In c S -> (List.length (C2 c) <= List.length p + 1)%nat) /\
    (code_cost f C2 S <= code_cost f C S)%Z.
Proof.
  intros S ND Hfa Hfb HP HB Hx Hy Hcx Hcy Hmax.
  assert (Ha : In a S) by now left.
  assert (Hb : In b S) by (right; now left).
  assert (Hab : a <> b).
  { apply NoDup_cons_iff in ND as [Hn _]. intros ->. apply Hn. now left. }
  set (C1 := fun c => C (swp a x c)).
  set (y1 := swp a x y).
  assert (Hy1 : In y1 S) by now apply swp_in.
  assert (HC1a : C1 a = p ++ [bt]).
  { unfold C1. now rewrite swp_l. }
  assert (HC1y : C1 y1 = p ++ [flip bt]).
  { unfold C1, y1. now rewrite swp_invol. }
  assert (Hy1a : y1 <> a).
  { intros E. rewrite E, HC1a in HC1y. apply app_inv_head in HC1y.
    injection HC1y as HC1y. symmetry in HC1y. now apply flip_neq in HC1y. }
  assert (Hmax1 : forall c, In c S ->
            (List.length (C1 c) <= List.length p + 1)%nat).
  { intros c Hc. unfold C1. apply Hmax. now apply swp_in. }
  exists (fun c => C1 (swp b y1 c)).
  split; [|split; [|split; [|split; [|split]]]].
  - apply prefix_free_swp; auto. unfold C1. now apply prefix_free_swp.
  - apply binary_swp; auto. unfold C1. now apply binary_swp.
  - rewrite swp_other by congruence. exact HC1a.
  - now rewrite swp_l.
  - intros c Hc. apply Hmax1. now apply swp_in.
  - etransitivity.
    + apply code_cost_swp_le; auto.
      rewrite HC1y, length_app. simpl. now apply Hmax1.
    + unfold C1. apply code_cost_swp_le; auto.
      rewrite Hcx, length_app. simpl. now apply Hmax.
Qed.

(** Every binary prefix-free code for the symbols [a :: b :: A], where
    [a] and [b] carry the two smallest weights, yields a binary
    prefix-free code for [a :: A] under the merged weights, cheaper by at
    least [f a + f b]. *)
Lemma reduce_code (n : nat) :
  forall (f : char -> Z) (C : char -> str) (a b : char) (A : list char),
    let S := a :: b :: A in
    let g := merged f a b in
    NoDup S ->
    (forall c, In c S -> (0 <= f c)%Z) ->
    (forall c, In c S -> (f a <= f c)%Z) ->
    (forall c, In c S -> c <> a -> (f b <= f c)%Z) ->
    prefix_free_on S C -> binary_on S C ->
    (zsum (fun c => Z.of_nat (List.length (C c))) S <= Z.of_nat n)%Z ->
    exists C',
      prefix_free_on (a :: A) C' /\ binary_on (a :: A) C' /\
      (code_cost g C' (a :: A) + f a + f b <= code_cost f C S)%Z.
Proof.
  induction n as [|n IH]; intros f C a b A S g ND Hf Hfa Hfb HP HB Hn.
  - exfalso.
    assert (Hnn : forall c, In c S ->
              (0 <= (fun c => Z.of_nat (List.length (C c))) c)%Z)
      by (intros; lia).
    unfold S in Hn. simpl in Hn.
    assert (0 <= zsum (fun c => Z.of_nat (List.length (C c))) A)%Z.
    { apply zsum_nonneg. intros; lia. }
    assert (Ea : C a = []).
    { destruct (C a) eqn:E; [reflexivity|].
      simpl List.length in Hn. lia. }
    apply (HP a b); [now left | right; now left | |].
    + apply NoDup_cons_iff in ND as [Hna _]. intros ->. apply Hna. now left.
    + rewrite Ea. now exists (C b).
  - destruct (@exists_longest C S) as (x & Hx & Hmax); [discriminate|].
    assert (Hab : a <> b).
    { apply NoDup_cons_iff in ND as [Hna _]. intros ->. apply Hna. now left. }
    destruct (@exists_last _ (C x)) as (p & bt & Hcx).
    { intros E. apply (HP a b); [now left | right; now left | exact Hab |].
      assert (La : (List.length (C a) <= List.length (C x))%nat)
        by (apply Hmax; now left).
      rewrite E in La. destruct (C a) eqn:Ea; [now exists (C b)|].
      simpl in La. lia. }
    assert (Hmax' : forall c, In c S ->
              (List.length (C c) <= List.length p + 1)%nat).
    { intros c Hc. specialize (Hmax c Hc).
      rewrite Hcx, length_app in Hmax. exact Hmax. }
    destruct (find (fun y => str_eqb (C y) (p ++ [flip bt])) S) as [y|] eqn:Hfind.
    + apply find_some in Hfind as [Hy Hcy]. apply str_eqb_eq in Hcy.
      destruct (@siblings_to_lightest f C a b A x y p bt)
        as (C2 & H1 & H2 & H3 & H4 & H5 & H6); auto.
      destruct (@merge_siblings f C2 a b A p bt) as (H7 & H8 & H9); auto.
      eexists. split; [exact H7|]. split; [exact H8|].
      etransitivity; [|exact H6]. apply Z.eq_le_incl. exact H9.
    + assert (Hsib : forall y, In y S -> C y <> p ++ [flip bt]).
      { intros y Hy E. apply (find_none _ _ Hfind) in Hy.
        apply str_eqb_neq in Hy. contradiction. }
      destruct (@shorten_longest S C x p bt) as (H1 & H2 & H3 & H4); auto.
      destruct (IH f (fun c => if N.eqb c x then p else C c) a b A)
        as (C' & H5 & H6 & H7); auto.
      * etransitivity; [apply Z.eq_le_incl; exact H3 | lia].
      * exists C'. split; [exact H5|]. split; [exact H6|].
        etransitivity; [exact H7 | exact (H4 f Hf)].
Qed.

(** ** The merge loop keeps its list sorted and commutes with splitting *)

Lemma sl_add_sorted (x : entry) (l l' : list entry) :
  freq_sorted l -> ~ In (e_char x) (map e_char l) ->
  sl_add x l = Ok l' -> freq_sorted l'.
Proof.
  revert l'; induction l as [|y l IH]; intros l' HS Hnew Hadd; simpl in *.
  - injection Hadd as <-. repeat constructor.
  - assert (Hxy : e_char x <> e_char y) by intuition congruence.
    destruct (@tuple_lt_distinct x y Hxy) as [b Hb].
    rewrite Hb in Hadd. simpl in Hadd.
    apply StronglySorted_inv in HS as [HS Hy]. destruct b.
    + injection Hadd as <-.
      pose proof (@tuple_lt_true_freq x y Hb Hxy) as Hle.
      constructor; [now constructor|].
      constructor; [exact Hle|].
      eapply Forall_impl; [|exact Hy]. simpl. intros; lia.
    + destruct (@sl_add_perm x l) as (l'' & Hadd' & Hperm); [tauto|].
      rewrite Hadd' in Hadd. simpl in Hadd. injection Hadd as <-.
      pose proof (@tuple_lt_false_freq x y Hb Hxy) as Hle.
      constructor; [apply IH; auto|].
      eapply Permutation_Forall; [exact Hperm|].
      constructor; [exact Hle | exact Hy].
Qed.

Lemma node_fill_sorted (items : freq_table) (acc l : list entry) :
  NoDup (keys items) -> node_list_inv acc ->
  (forall c, In c (keys items) -> ~ In c (all_leaves acc)) ->
  freq_sorted acc -> node_fill items acc = Ok l -> freq_sorted l.
Proof.
  revert acc; induction items as [|[c n] items IH];
    intros acc ND Hinv Hd HS Hfill; simpl in *.
  - now injection Hfill as <-.
  - apply NoDup_cons_iff in ND as [Hc ND'].
    assert (Hnew : ~ In (e_char (n, c, Chr c)) (map e_char acc)).
    { intros Hin. apply (Hd c); [now left|].
      now apply chars_in_all_leaves. }
    destruct (sl_add_perm _ _ Hnew) as (l' & Hadd & Hperm).
    rewrite Hadd in Hfill. simpl in Hfill.
    apply (IH l'); auto.
    + eapply node_list_inv_perm; [exact Hperm|].
      apply node_list_inv_cons_leaf; [exact Hinv|]. apply Hd. now left.
    + intros c' Hc' Hin.
      apply (Permutation_in _ (Permutation_sym (all_leaves_perm Hperm))) in Hin.
      unfold all_leaves in Hin. simpl in Hin. destruct Hin as [->|Hin].
      * contradiction.
      * apply (Hd c'); [now right | exact Hin].
    + eapply sl_add_sorted; eassumption.
Qed.

Lemma tuple_lt_split (a b : char) (x y : entry) :
  e_char x <> e_char y ->
  tuple_lt (split_entry a b x) (split_entry a b y) = tuple_lt x y.
Proof.
  intros H. unfold tuple_lt, split_entry, e_freq, e_char, e_node in *.
  simpl.
  destruct (Z.eqb (fst (fst x)) (fst (fst y))); [|reflexivity].
  destruct (N.eqb_spec (snd (fst x)) (snd (fst y)));
    [contradiction | reflexivity].
Qed.

Lemma sl_add_split_entry (a b : char) (x : entry) (l l' : list entry) :
  ~ In (e_char x) (map e_char l) -> sl_add x l = Ok l' ->
  sl_add (split_entry a b x) (map (split_entry a b) l) =
  Ok (map (split_entry a b) l').
Proof.
  revert l'; induction l as [|y l IH]; intros l' Hnew Hadd; simpl in *.
  - now injection Hadd as <-.
  - assert (Hxy : e_char x <> e_char y) by intuition congruence.
    rewrite (@tuple_lt_split a b x y Hxy).
    destruct (@tuple_lt_distinct x y Hxy) as [bo Hb].
    rewrite Hb in *. simpl in *. destruct bo.
    + now injection Hadd as <-.
    + destruct (@sl_add_perm x l) as (l'' & Hadd' & _); [tauto|].
      rewrite Hadd' in Hadd. simpl in Hadd. injection Hadd as <-.
      rewrite (IH l'') by tauto. reflexivity.
Qed.

(** Running the loop on a list in which a leaf has been split gives the
    result of the loop on the original list, with that leaf split. *)
Lemma node_merge_split (a b : char) (fuel : nat) :
  forall l l', node_list_inv l -> node_merge fuel l = Ok l' ->
    node_merge fuel (map (split_entry a b) l) = Ok (map (split_entry a b) l').
Proof.
  induction fuel as [|fuel IH]; intros l l' Hinv Hrun.
  - destruct l as [|a0 [|b0 rest]]; simpl in *;
      try (injection Hrun as <-; reflexivity). discriminate.
  - destruct l as [|a0 [|b0 rest]];
      try (simpl in *; injection Hrun as <-; reflexivity).
    pose proof (node_list_inv_chars Hinv) as Hnd.
    destruct (node_list_inv_merge Hinv) as [Hinv' _].
    cbn [node_merge] in Hrun. cbn [map node_merge].
    set (x := ((e_freq a0 + e_freq b0)%Z, e_char a0,
               PyList [e_node a0; e_node b0])) in *.
    assert (Hnew : ~ In (e_char x) (map e_char rest)).
    { apply NoDup_cons_iff in Hnd as [Hn _]. simpl in *. tauto. }
    destruct (sl_add_perm _ _ Hnew) as (l'' & Hadd & Hperm).
    rewrite Hadd in Hrun. cbn [bind] in Hrun.
    change ((e_freq (split_entry a b a0) + e_freq (split_entry a b b0))%Z,
            e_char (split_entry a b a0),
            PyList [e_node (split_entry a b a0); e_node (split_entry a b b0)])
      with (split_entry a b x).
    rewrite (@sl_add_split_entry a b x rest l'' Hnew Hadd). cbn [bind].
    apply IH; [|exact Hrun].
    eapply node_list_inv_perm; eassumption.
Qed.

(** ** Cost of a tree after splitting a leaf *)

Lemma paths_cost_app (f : char -> Z) (p1 p2 : list (char * str)) :
  paths_cost f (p1 ++ p2) = (paths_cost f p1 + paths_cost f p2)%Z.
Proof. induction p1 as [|[c w] p1 IH]; simpl; lia. Qed.

Lemma paths_cost_split (f : char -> Z) (a b : char) (t : tree) :
  well_formed t ->
  forall index,
    paths_cost f (paths (split_leaf a b t) index) =
    (paths_cost (merged f a b) (paths t index) +
     (f a + f b) * Z.of_nat (@count_occ char N.eq_dec (leaves t) a))%Z.
Proof.
  induction 1 as [c | l r Hl IHl Hr IHr]; intros index.
  - simpl. unfold merged. destruct (N.eqb_spec c a) as [->|Hne].
    + simpl. destruct (N.eq_dec a a); [|congruence].
      rewrite !length_app. simpl. lia.
    + simpl. destruct (N.eq_dec c a); [congruence|]. lia.
  - simpl. rewrite !paths_cost_app, IHl, IHr, app_nil_r, count_occ_app.
    rewrite Nat2Z.inj_add. ring.
Qed.

(** ** Optimality of the merge loop *)

Lemma leaf_list_all_leaves (l : list entry) :
  leaf_list l -> all_leaves l = map e_char l.
Proof.
  unfold all_leaves. induction 1 as [|e l He _ IH]; simpl; [reflexivity|].
  now rewrite He, IH.
Qed.

Lemma leaf_list_inv (l : list entry) :
  leaf_list l -> NoDup (map e_char l) -> node_list_inv l.
Proof.
  intros HL ND. split; [|split].
  - eapply Forall_impl; [|exact HL]. simpl. intros e ->. constructor.
  - now rewrite leaf_list_all_leaves.
  - eapply Forall_impl; [|exact HL]. simpl. intros e ->. now left.
Qed.

Lemma split_entry_leaf_list (a b : char) (l : list entry) :
  leaf_list l -> ~ In a (map e_char l) -> map (split_entry a b) l = l.
Proof.
  induction 1 as [|e l He _ IH]; simpl; intros Hn; [reflexivity|].
  rewrite IH by tauto. f_equal.
  destruct e as [[w c] t]. unfold split_entry, e_freq, e_char, e_node in *.
  simpl in *. subst t. simpl.
  destruct (N.eqb_spec c a); [|reflexivity]. subst. tauto.
Qed.

Lemma prefix_free_on_equiv (S S' : list char) (C : char -> str) :
  (forall c, In c S' -> In c S) -> prefix_free_on S C -> prefix_free_on S' C.
Proof. intros H HP x y Hx Hy. apply HP; auto. Qed.

Lemma binary_on_equiv (S S' : list char) (C : char -> str) :
  (forall c, In c S' -> In c S) -> binary_on S C -> binary_on S' C.
Proof. intros H HB x Hx. apply HB; auto. Qed.

Lemma code_cost_nonneg (f : char -> Z) (C : char -> str) (S : list char) :
  (forall c, In c S -> (0 <= f c)%Z) -> (0 <= code_cost f C S)%Z.
Proof.
  intros H. apply zsum_nonneg. intros c Hc. specialize (H c Hc). nia.
Qed.

(** The tree left by the loop on a sorted list of leaves costs no more
    than any binary prefix-free code for the characters of the list. *)
Lemma node_merge_optimal (n : nat) :
  forall (fuel : nat) (l : list entry) (f : char -> Z),
    List.length l = S n -> (n <= fuel)%nat ->
    leaf_list l -> NoDup (map e_char l) -> freq_sorted l ->
    (forall e, In e l -> f (e_char e) = e_freq e /\ (0 <= e_freq e)%Z) ->
    exists e,
      node_merge fuel l = Ok [e] /\
      forall C, prefix_free_on (map e_char l) C ->
                binary_on (map e_char l) C ->
                (paths_cost f (paths (e_node e) []) <=
                 code_cost f C (map e_char l))%Z.
Proof.
  induction n as [|n IH]; intros fuel l f Hlen Hfuel HL ND HS Hf.
  - destruct l as [|e0 [|? ?]]; try discriminate.
    exists e0. split; [now destruct fuel|].
    intros C _ _. apply Forall_inv in HL. rewrite HL. simpl.
    assert (0 <= code_cost f C [e_char e0])%Z.
    { apply code_cost_nonneg. intros c [<-|[]].
      destruct (Hf e0 (or_introl eq_refl)) as [-> ?]. assumption. }
    simpl in *. lia.
  - destruct l as [|a0 [|b0 rest]]; try discriminate.
    destruct fuel as [|fuel]; [lia|].
    set (ca := e_char a0). set (cb := e_char b0).
    assert (Hna : e_node a0 = Chr ca) by (apply Forall_inv in HL; exact HL).
    assert (Hnb : e_node b0 = Chr cb).
    { apply Forall_inv_tail, Forall_inv in HL. exact HL. }
    assert (HLrest : leaf_list rest) by (do 2 apply Forall_inv_tail in HL; exact HL).
    simpl in ND. fold ca cb in ND.
    apply NoDup_cons_iff in ND as [Hca ND']. pose proof ND' as ND''.
    apply NoDup_cons_iff in ND' as [Hcb NDrest].
    assert (Hca' : ~ In ca (map e_char rest)) by (simpl in Hca; tauto).
    set (x0 := ((e_freq a0 + e_freq b0)%Z, ca, Chr ca) : entry).
    destruct (@sl_add_perm x0 rest Hca') as (lr & Hadd & Hperm).
    apply StronglySorted_inv in HS as [HS1 Hmina].
    apply StronglySorted_inv in HS1 as [HSrest Hminb].
    apply Forall_inv in Hmina as Hab.
    destruct (Hf a0) as [Hfa Hwa]; [now left|].
    destruct (Hf b0) as [Hfb Hwb]; [right; now left|].
    fold ca in Hfa. fold cb in Hfb.
    assert (Hrest : forall e, In e rest ->
              f (e_char e) = e_freq e /\ (e_freq b0 <= e_freq e)%Z /\
              e_char e <> ca /\ e_char e <> cb).
    { intros e He. rewrite Forall_forall in Hminb.
      split; [apply Hf; now do 2 right|].
      split; [now apply Hminb|].
      split; intros E.
      - apply Hca'. rewrite <- E. now apply in_map.
      - apply Hcb. rewrite <- E. now apply in_map. }
    (* the reduced list *)
    assert (HLr : leaf_list lr).
    { eapply Permutation_Forall; [exact Hperm|]. now constructor. }
    assert (Pchars : Permutation (ca :: map e_char rest) (map e_char lr)).
    { apply (Permutation_map e_char) in Hperm. exact Hperm. }
    assert (NDr : NoDup (map e_char lr)).
    { eapply Permutation_NoDup; [exact Pchars|]. now constructor. }
    assert (HSr : freq_sorted lr).
    { apply (@sl_add_sorted x0 rest lr); auto. }
    assert (Hlenr : List.length lr = S n).
    { apply Permutation_length in Hperm. simpl in *. lia. }
    assert (Hg : forall e, In e lr ->
              merged f ca cb (e_char e) = e_freq e /\ (0 <= e_freq e)%Z).
    { intros e He. apply (Permutation_in _ (Permutation_sym Hperm)) in He.
      unfold merged. destruct He as [<-|He].
      - change (e_char x0) with ca.
        change (e_freq x0) with (e_freq a0 + e_freq b0)%Z.
        rewrite N.eqb_refl. lia.
      - destruct (Hrest e He) as (H1 & H2 & H3 & _).
        destruct (N.eqb_spec (e_char e) ca); [contradiction|]. lia. }
    destruct (IH fuel lr (merged f ca cb)) as (e' & Hrun & Hopt); auto; [lia|].
    (* the loop on the original list *)
    assert (Hinvr : node_list_inv lr) by now apply leaf_list_inv.
    pose proof (@node_merge_split ca cb fuel lr [e'] Hinvr Hrun) as Hrun'.
    pose proof (@sl_add_split_entry ca cb x0 rest lr Hca' Hadd) as Hadd'.
    rewrite (@split_entry_leaf_list ca cb rest HLrest Hca') in Hadd'.
    assert (Ex : split_entry ca cb x0 =
                 ((e_freq a0 + e_freq b0)%Z, e_char a0,
                  PyList [e_node a0; e_node b0])).
    { rewrite Hna, Hnb. unfold split_entry, x0, e_freq, e_char, e_node.
      simpl. now rewrite N.eqb_refl. }
    rewrite Ex in Hadd'.
    exists (split_entry ca cb e'). split.
    { cbn [node_merge]. rewrite Hadd'. cbn [bind]. exact Hrun'. }
    intros C HP HB. simpl map. fold ca cb.
    (* cost of the tree *)
    destruct (@node_merge_ok fuel lr) as (e'' & Hrun'' & Hinv' & Hlv);
      [lia | intros ->; discriminate | exact Hinvr |].
    rewrite Hrun in Hrun''. injection Hrun'' as <-.
    destruct Hinv' as (Hwf & _ & _). apply Forall_inv in Hwf.
    unfold all_leaves in Hlv at 1. simpl in Hlv. rewrite app_nil_r in Hlv.
    rewrite (leaf_list_all_leaves HLr) in Hlv.
    assert (Hcount : @count_occ char N.eq_dec (leaves (e_node e')) ca = 1%nat).
    { apply NoDup_count_occ'.
      - eapply Permutation_NoDup; [apply Permutation_sym; exact Hlv | exact NDr].
      - apply (Permutation_in _ (Permutation_sym Hlv)).
        apply (Permutation_in _ Pchars). now left. }
    change (e_node (split_entry ca cb e')) with (split_leaf ca cb (e_node e')).
    rewrite (@paths_cost_split f ca cb (e_node e') Hwf), Hcount.
    (* the competing code *)
    destruct (@reduce_code
                (Z.to_nat (zsum (fun c => Z.of_nat (List.length (C c)))
                             (ca :: cb :: map e_char rest)))
                f C ca cb (map e_char rest))
      as (C' & HP' & HB' & Hcost); auto.
    + now constructor.
    + intros c [<-|[<-|Hc]]; [lia | lia |].
      apply in_map_iff in Hc as (e & <- & He).
      destruct (Hrest e He) as (H1 & H2 & _). lia.
    + intros c [<-|[<-|Hc]]; [lia | lia |].
      apply in_map_iff in Hc as (e & <- & He).
      destruct (Hrest e He) as (H1 & H2 & _). lia.
    + intros c [<-|[<-|Hc]] Hne; [congruence | lia |].
      apply in_map_iff in Hc as (e & <- & He).
      destruct (Hrest e He) as (H1 & H2 & _). lia.
    + rewrite Z2Nat.id; [lia|]. apply zsum_nonneg. intros; lia.
    + assert (Hin : forall c, In c (map e_char lr) ->
                In c (ca :: map e_char rest)).
      { intros c. apply Permutation_in. now apply Permutation_sym. }
      specialize (Hopt C' (@prefix_free_on_equiv _ _ C' Hin HP')
                    (@binary_on_equiv _ _ C' Hin HB')).
      unfold code_cost in Hopt.
      rewrite <- (zsum_perm _ Pchars) in Hopt.
      unfold code_cost in *. lia.
Qed.

(** ** The frequency table *)

Lemma cset_In (V : Type) (d : dict char V) (k0 : char) (v0 : V)
    (k : char) (v : V) :
  In (k, v) (cset d k0 v0) -> (k, v) = (k0, v0) \/ In (k, v) d.
Proof.
  unfold cset. induction d as [|[k1 v1] d IH]; simpl.
  - intuition congruence.
  - destruct (N.eqb k0 k1); simpl; intuition congruence.
Qed.

Lemma letter_distribution_fold (s : str) :
  forall acc : freq_table,
    NoDup (keys acc) -> (forall c n, In (c, n) acc -> (0 < n)%Z) ->
    let r := fold_left letter_distribution_step s acc in
    NoDup (keys r) /\
    (forall c, In c (keys r) <-> In c (keys acc) \/ In c s) /\
    (forall c n, In (c, n) r -> (0 < n)%Z).
Proof.
  induction s as [|c0 s IH]; intros acc ND Hpos; simpl.
  - repeat split; auto. tauto.
  - assert (ND' : NoDup (keys (letter_distribution_step acc c0))).
    { unfold letter_distribution_step.
      destruct (cget acc c0); apply keys_set_NoDup; auto using N.eqb_eq. }
    assert (Hpos' : forall c n, In (c, n) (letter_distribution_step acc c0) ->
              (0 < n)%Z).
    { unfold letter_distribution_step. intros c n Hin.
      destruct (cget acc c0) as [m|] eqn:E.
      - apply cset_In in Hin as [Hin|Hin]; [|eauto].
        injection Hin as -> ->.
        apply (dict_get_In N.eqb N.eqb_eq) in E. apply Hpos in E. lia.
      - apply cset_In in Hin as [Hin|Hin]; [|eauto].
        injection Hin as -> ->. lia. }
    destruct (IH _ ND' Hpos') as (H1 & H2 & H3).
    split; [exact H1|]. split; [|exact H3].
    intros c. rewrite H2. unfold letter_distribution_step.
    destruct (cget acc c0); unfold cset;
      rewrite (keys_set_incl N.eqb N.eqb_eq); intuition congruence.
Qed.

Lemma letter_distribution_keys (s : str) :
  NoDup (keys (letter_distribution s)) /\
  (forall c, In c (keys (letter_distribution s)) <-> In c s) /\
  (forall c n, In (c, n) (letter_distribution s) -> (0 < n)%Z).
Proof.
  destruct (@letter_distribution_fold s []) as (H1 & H2 & H3).
  - constructor.
  - intros c n [].
  - split; [exact H1|]. split; [|exact H3].
    intros c. rewrite H2. simpl. tauto.
Qed.

Lemma letter_distribution_nonempty (s : str) :
  s <> [] -> letter_distribution s <> [].
Proof.
  intros Hs E. destruct s as [|c s]; [congruence|].
  destruct (letter_distribution_keys (c :: s)) as (_ & H & _).
  rewrite E in H. apply (H c). now left.
Qed.

Lemma freq_of_step (acc : freq_table) (c0 c : char) :
  freq_of (letter_distribution_step acc c0) c =
  (freq_of acc c + if N.eqb c0 c then 1 else 0)%Z.
Proof.
  unfold letter_distribution_step, freq_of.
  destruct (N.eqb_spec c0 c) as [->|Hne].
  - destruct (cget acc c) as [n|] eqn:E; unfold cget, cset in *;
      rewrite (dict_get_set_same N.eqb N.eqb_eq); lia.
  - destruct (cget acc c0) as [n|]; unfold cget, cset in *;
      rewrite (dict_get_set_other N.eqb N.eqb_eq) by congruence;
      symmetry; apply Z.add_0_r.
Qed.

(** The count [letter_distribution] gives a character is its number of
    occurrences in the string. *)
Lemma letter_distribution_count (s : str) (c : char) :
  freq_of (letter_distribution s) c =
  Z.of_nat (@count_occ char N.eq_dec s c).
Proof.
  unfold letter_distribution.
  assert (H : forall acc,
            freq_of (fold_left letter_distribution_step s acc) c =
            (freq_of acc c + Z.of_nat (@count_occ char N.eq_dec s c))%Z).
  { induction s as [|c0 s IH]; intros acc; simpl; [lia|].
    rewrite IH, freq_of_step.
    destruct (N.eq_dec c0 c) as [->|Hne].
    - rewrite N.eqb_refl. lia.
    - destruct (N.eqb_spec c0 c); [contradiction | lia]. }
  rewrite H. reflexivity.
Qed.

(** ** Writing paths into the module dictionary *)

Lemma write_all_untouched (ps : list (char * str)) (d : code_table) (c : char) :
  ~ In c (map fst ps) -> cget (write_all ps d) c = cget d c.
Proof.
  revert d; induction ps as [|[c0 w0] ps IH]; intros d Hn; simpl in *.
  - reflexivity.
  - unfold write_all in *. simpl. rewrite IH by tauto.
    apply (dict_get_set_other N.eqb N.eqb_eq). intuition congruence.
Qed.

Lemma write_all_get (ps : list (char * str)) (d : code_table) (c : char)
    (w : str) :
  NoDup (map fst ps) -> In (c, w) ps -> cget (write_all ps d) c = Some w.
Proof.
  revert d; induction ps as [|[c0 w0] ps IH]; intros d ND Hin; simpl in *.
  - contradiction.
  - apply NoDup_cons_iff in ND as [Hn ND]. destruct Hin as [E|Hin].
    + injection E as -> ->.
      change (write_all ((c, w) :: ps) d) with (write_all ps (cset d c w)).
      rewrite write_all_untouched by exact Hn.
      apply (dict_get_set_same N.eqb N.eqb_eq).
    + change (write_all ((c0, w0) :: ps) d) with (write_all ps (cset d c0 w0)).
      now apply IH.
Qed.

Lemma write_all_keys (ps : list (char * str)) (d : code_table) (c : char) :
  In c (keys (write_all ps d)) <-> In c (keys d) \/ In c (map fst ps).
Proof.
  revert d; induction ps as [|[c0 w0] ps IH]; intros d; simpl.
  - tauto.
  - change (write_all ((c0, w0) :: ps) d) with (write_all ps (cset d c0 w0)).
    rewrite IH. unfold cset. rewrite (keys_set_incl N.eqb N.eqb_eq).
    intuition congruence.
Qed.

Lemma write_all_NoDup (ps : list (char * str)) (d : code_table) :
  NoDup (keys d) -> NoDup (keys (write_all ps d)).
Proof.
  revert d; induction ps as [|[c0 w0] ps IH]; intros d ND; simpl.
  - exact ND.
  - change (write_all ((c0, w0) :: ps) d) with (write_all ps (cset d c0 w0)).
    apply IH. now apply keys_set_NoDup; [apply N.eqb_eq|].
Qed.

(** ** Paths of a well-formed tree *)

Lemma paths_extend (t : tree) :
  well_formed t ->
  forall index c w, In (c, w) (paths t index) ->
    exists suffix, w = index ++ suffix /\ Forall is_bit suffix /\
      (match t with PyList _ => suffix <> [] | Chr _ => True end).
Proof.
  induction 1 as [c0 | l r Hl IHl Hr IHr]; intros index c w Hin; simpl in Hin.
  - destruct Hin as [E|[]]. injection E as -> ->.
    exists []. rewrite app_nil_r. auto.
  - apply in_app_or in Hin as [Hin|Hin].
    + destruct (IHl _ _ _ Hin) as (sf & -> & Hb & _).
      exists (bit0 :: sf). rewrite <- app_assoc. split; [reflexivity|].
      split; [|discriminate]. constructor; [now left | exact Hb].
    + destruct (IHr _ _ _ Hin) as (sf & -> & Hb & _).
      exists (bit1 :: sf). rewrite <- app_assoc. split; [reflexivity|].
      split; [|discriminate]. constructor; [now right | exact Hb].
Qed.

Lemma paths_prefix_free (t : tree) :
  well_formed t -> NoDup (leaves t) ->
  forall index c1 w1 c2 w2,
    In (c1, w1) (paths t index) -> In (c2, w2) (paths t index) ->
    c1 <> c2 -> ~ is_prefix w1 w2.
Proof.
  induction 1 as [c0 | l r Hl IHl Hr IHr]; intros ND index c1 w1 c2 w2 H1 H2 Hne.
  - simpl in *. intuition congruence.
  - simpl in ND. rewrite app_nil_r in ND.
    pose proof (NoDup_app_remove_r _ _ ND) as NDl.
    pose proof (NoDup_app_remove_l _ _ ND) as NDr.
    simpl in H1, H2.
    apply in_app_or in H1 as [H1|H1]; apply in_app_or in H2 as [H2|H2].
    + now apply (IHl NDl _ _ _ _ _ H1 H2).
    + destruct (paths_extend Hl _ _ _ H1) as (s1 & -> & _).
      destruct (paths_extend Hr _ _ _ H2) as (s2 & -> & _).
      intros [q E]. rewrite <- !app_assoc in E.
      apply app_inv_head in E. discriminate.
    + destruct (paths_extend Hr _ _ _ H1) as (s1 & -> & _).
      destruct (paths_extend Hl _ _ _ H2) as (s2 & -> & _).
      intros [q E]. rewrite <- !app_assoc in E.
      apply app_inv_head in E. discriminate.
    + now apply (IHr NDr _ _ _ _ _ H1 H2).
Qed.

Lemma paths_In_leaf (t : tree) (index : str) (c : char) :
  well_formed t -> In c (leaves t) -> exists w, In (c, w) (paths t index).
Proof.
  intros Hwf Hin. rewrite <- (paths_keys Hwf index) in Hin.
  apply in_map_iff in Hin as ([c' w] & E & Hin). simpl in E. subst.
  now exists w.
Qed.

(** ** The table returned by [huffman_code] *)

(** On a non-empty string [huffman_code] builds a well-formed tree over
    the symbols of the string.  If the tree is a single character the
    call returns a new dictionary; otherwise it writes the paths of the
    tree into [code_dict], over whatever [code_dict] held, and returns
    [code_dict]. *)
Lemma huffman_code_run (s : str) (st : code_table) :
  s <> [] ->
  exists t,
    node_reducer (letter_distribution s) = Ok t /\
    well_formed t /\ NoDup (leaves t) /\
    (forall c, In c (leaves t) <-> In c s) /\
    huffman_code s st =
    match t with
    | Chr c => (Ok (Fresh [(c, [bit1])]), st)
    | PyList _ => (Ok ModuleCodeDict, write_all (paths t []) st)
    end.
Proof.
  intros Hs. destruct (letter_distribution_keys s) as (ND & Hk & _).
  destruct (node_reducer_ok ND (letter_distribution_nonempty Hs))
    as (t & H1 & H2 & H3).
  exists t. split; [exact H1|]. split; [exact H2|]. split; [|split].
  - eapply Permutation_NoDup; [apply Permutation_sym; exact H3 | exact ND].
  - intros c. rewrite <- Hk. split; apply Permutation_in;
      [exact H3 | now apply Permutation_sym].
  - unfold huffman_code, mbind, lift. rewrite H1.
    apply (code_assigner_wf H2).
Qed.

(** Whatever [code_dict] held before the call, the returned table gives
    the symbols of the string a binary prefix code. *)
Lemma huffman_code_prefix_code_on (s : str) (st : code_table) :
  s <> [] ->
  exists r st', huffman_code s st = (Ok r, st') /\
                prefix_code_on s (deref r st').
Proof.
  intros Hs. destruct (huffman_code_run st Hs) as (t & _ & Hwf & ND & Hl & Hrun).
  rewrite Hrun. destruct t as [c|items].
  - do 2 eexists. split; [reflexivity|]. simpl.
    assert (Hc : forall x, In x s -> x = c).
    { intros x Hx. apply Hl in Hx. simpl in Hx. intuition. }
    split.
    + intros x Hx. rewrite (Hc x Hx). exists [bit1].
      unfold cget. simpl. rewrite N.eqb_refl.
      repeat split; [discriminate|]. constructor; [now right | constructor].
    + intros c1 c2 H1 H2 Hne. rewrite (Hc c1 H1), (Hc c2 H2) in Hne.
      congruence.
  - do 2 eexists. split; [reflexivity|]. cbn [deref].
    set (ps := paths (PyList items) []).
    assert (NDp : NoDup (map fst ps)).
    { unfold ps. now rewrite (paths_keys Hwf). }
    assert (Hget : forall x, In x s ->
              exists w, In (x, w) ps /\ cget (write_all ps st) x = Some w).
    { intros x Hx. apply Hl in Hx.
      destruct (@paths_In_leaf _ [] x Hwf Hx) as [w Hw].
      exists w. split; [exact Hw|]. now apply write_all_get. }
    split.
    + intros x Hx. destruct (Hget x Hx) as (w & Hw & Hg).
      exists w. split; [exact Hg|].
      destruct (paths_extend Hwf _ _ _ Hw) as (sf & -> & Hb & Hne).
      simpl. auto.
    + intros c1 c2 H1 H2 Hne.
      destruct (Hget c1 H1) as (w1 & Hw1 & Hg1).
      destruct (Hget c2 H2) as (w2 & Hw2 & Hg2).
      unfold code_of. rewrite Hg1, Hg2.
      exact (@paths_prefix_free (PyList items) Hwf ND [] c1 w1 c2 w2
               Hw1 Hw2 Hne).
Qed.

(** ** Cost of a table *)

Lemma weighted_length_code_cost (d : freq_table) (t : code_table) :
  NoDup (keys d) ->
  weighted_length d t = code_cost (freq_of d) (code_of t) (keys d).
Proof.
  intros ND. unfold code_cost.
  assert (H : forall d', incl d' d ->
            weighted_length d' t =
            zsum (fun c => freq_of d c * Z.of_nat (List.length (code_of t c)))%Z
                 (keys d')).
  { induction d' as [|[c n] d' IH]; intros Hi; simpl; [reflexivity|].
    rewrite IH by (intros x Hx; apply Hi; now right).
    assert (E : freq_of d c = n).
    { pose proof (@In_dict_get char Z N.eqb N.eqb_eq d c n ND
                    (Hi _ (or_introl eq_refl))) as G.
      unfold freq_of, cget. now rewrite G. }
    now rewrite E. }
  apply H. apply incl_refl.
Qed.

Lemma code_cost_paths (f : char -> Z) (C : char -> str)
    (ps : list (char * str)) :
  (forall c w, In (c, w) ps -> C c = w) ->
  code_cost f C (map fst ps) = paths_cost f ps.
Proof.
  unfold code_cost. induction ps as [|[c w] ps IH]; intros H; simpl.
  - reflexivity.
  - rewrite (H c w) by now left. rewrite IH; [reflexivity|].
    intros c' w' Hin. apply H. now right.
Qed.

Lemma freq_of_pos (d : freq_table) (c : char) :
  NoDup (keys d) -> (forall c n, In (c, n) d -> (0 < n)%Z) ->
  In c (keys d) -> (0 < freq_of d c)%Z.
Proof.
  intros ND Hpos Hin. apply in_map_iff in Hin as ([c' n] & E & Hin).
  simpl in E. subst c'. unfold freq_of, cget.
  rewrite (@In_dict_get char Z N.eqb N.eqb_eq d c n ND Hin). eauto.
Qed.

(** [C8] For every non-empty string, in every module state,
    [huffman_code] returns a table that is a binary prefix code for the
    symbols of the string and whose total code length, each symbol
    weighted by its count in [letter_distribution], is minimal among all
    binary prefix codes for these symbols (tables that give every
    symbol a non-empty code of bits, no code being a prefix of the code
    of another symbol). *)
Theorem huffman_code_optimal (original_string : str) (code_dict : code_table) :
  original_string <> [] ->
  exists r code_dict',
    huffman_code original_string code_dict = (Ok r, code_dict') /\
    prefix_code_on original_string (deref r code_dict') /\
    forall t' : code_table,
      prefix_code_on original_string t' ->
      (weighted_length (letter_distribution original_string) (deref r code_dict')
       <= weighted_length (letter_distribution original_string) t')%Z.
Proof.
  intros Hs. rename original_string into s. rename code_dict into st.
  destruct (huffman_code_prefix_code_on st Hs) as (r & st' & Hcall & Hcode).
  exists r, st'. split; [exact Hcall|]. split; [exact Hcode|].
  intros t' [Hcodes Hpf].
  set (d := letter_distribution s).
  destruct (letter_distribution_keys s) as (ND & Hk & Hpos). fold d in ND, Hk, Hpos.
  rewrite !weighted_length_code_cost by exact ND.
  set (f := freq_of d). set (C := code_of t').
  assert (HC : forall c, In c s -> C c <> [] /\ Forall is_bit (C c)).
  { intros c Hc. destruct (Hcodes c Hc) as (w & Hw & Hne & Hb).
    unfold C, code_of. rewrite Hw. auto. }
  (* the run of node_reducer *)
  assert (Hd : d <> []) by now apply letter_distribution_nonempty.
  destruct (@node_fill_ok d [] ND node_list_inv_nil)
    as (l0 & H1 & H2 & _ & H4 & H5); [auto|].
  rewrite app_nil_r in H4.
  assert (HS0 : freq_sorted l0).
  { apply (@node_fill_sorted d [] l0 ND node_list_inv_nil);
      [auto | constructor | exact H1]. }
  assert (Pchars : Permutation (map e_char l0) (keys d)).
  { apply (Permutation_map fst) in H4. rewrite map_map in H4. exact H4. }
  assert (Hl0 : exists n, List.length l0 = S n).
  { destruct l0 as [|e0 l0]; [|now exists (List.length l0)].
    apply Permutation_nil in H4. contradiction. }
  destruct Hl0 as [n Hn].
  assert (Hagree : forall e0, In e0 l0 ->
            f (e_char e0) = e_freq e0 /\ (0 <= e_freq e0)%Z).
  { intros e0 He0.
    assert (Hin : In (e_char e0, e_freq e0) d).
    { apply (Permutation_in _ H4).
      now apply (in_map (fun e => (e_char e, e_freq e))). }
    pose proof (Hpos _ _ Hin).
    unfold f, freq_of, cget.
    rewrite (@In_dict_get char Z N.eqb N.eqb_eq d _ _ ND Hin). lia. }
  assert (Hfuel : (n <= List.length l0)%nat) by lia.
  destruct (@node_merge_optimal n (List.length l0) l0 f Hn Hfuel
              (H5 (Forall_nil _)) (node_list_inv_chars H2) HS0 Hagree)
    as (e & Hmerge & Hopt).
  destruct (huffman_code_run st Hs) as (t & Hred & Hwf & NDl & Hl & Hrun).
  assert (Et : t = e_node e).
  { fold d in Hred. unfold node_reducer in Hred. rewrite H1 in Hred.
    cbn [bind] in Hred. rewrite Hmerge in Hred. cbn [bind] in Hred.
    congruence. }
  rewrite Hcall in Hrun.
  (* the competing code *)
  assert (HPC : prefix_free_on (map e_char l0) C).
  { intros x y Hx Hy Hne. apply Hpf; auto;
      apply Hk; eapply Permutation_in; eauto. }
  assert (HBC : binary_on (map e_char l0) C).
  { intros x Hx. apply HC, Hk. eapply Permutation_in; eauto. }
  specialize (Hopt C HPC HBC). rewrite <- Et in Hopt.
  unfold code_cost in Hopt. rewrite (zsum_perm _ Pchars) in Hopt.
  fold (code_cost f C (keys d)) in Hopt.
  assert (Pleaves : Permutation (keys d) (leaves t)).
  { apply NoDup_Permutation; auto. intros c. rewrite Hk, Hl. tauto. }
  destruct t as [c|items].
  - injection Hrun as -> ->. cbn [deref].
    unfold code_cost. rewrite !(zsum_perm _ Pleaves). simpl.
    unfold code_of at 1, cget. simpl. rewrite N.eqb_refl. simpl.
    assert (Hc : In c s) by (apply Hl; now left).
    destruct (HC c Hc) as [Hne _].
    assert (0 < f c)%Z by (apply freq_of_pos; auto; now apply Hk).
    destruct (C c); [congruence|]. simpl List.length. nia.
  - injection Hrun as -> ->. cbn [deref].
    etransitivity; [|exact Hopt]. apply Z.eq_le_incl.
    unfold code_cost at 1. rewrite (zsum_perm _ Pleaves).
    rewrite <- (paths_keys Hwf []).
    apply code_cost_paths. intros c w Hin.
    change (code_of (write_all (paths (PyList items) []) st) c = w).
    unfold code_of.
    rewrite (@write_all_get (paths (PyList items) []) st c w); auto.
    now rewrite (paths_keys Hwf).
Qed.

Lemma huffman_code_optimal_witness :
  exists r code_dict',
    huffman_code (py "abacabad") [] = (Ok r, code_dict') /\
    prefix_code_on (py "abacabad") (deref r code_dict') /\
    forall t' : code_table,
      prefix_code_on (py "abacabad") t' ->
      (weighted_length (letter_distribution (py "abacabad")) (deref r code_dict')
       <= weighted_length (letter_distribution (py "abacabad")) t')%Z.
Proof.
  apply (@huffman_code_optimal (py "abacabad") []). discriminate.
Defined.

(** ** Round trip over a prefix code *)

Lemma prefix_code_owner (t : code_table) (c : char) (w : str) :
  NoDup (keys t) -> prefix_code t -> cget t c = Some w ->
  greedy_token t (w, c).
Proof.
  intros ND [Hcodes Hpf] Hget.
  assert (Hin : In (c, w) t) by (apply (dict_get_In N.eqb N.eqb_eq); exact Hget).
  assert (Hk : In c (keys t)) by (apply (in_map fst) in Hin; exact Hin).
  assert (Hown : forall c' p, code_owner t p = Some c' ->
            In c' (keys t) /\ code_of t c' = p).
  { intros c' p Ho. apply code_owner_In in Ho. split.
    - apply (in_map fst) in Ho. exact Ho.
    - unfold code_of, cget.
      now rewrite (@In_dict_get char str N.eqb N.eqb_eq t c' p ND Ho). }
  assert (Hcw : code_of t c = w) by (unfold code_of; now rewrite Hget).
  split; [|split]; simpl.
  - destruct (Hcodes c Hk) as (w' & Hw' & Hne & _). congruence.
  - destruct (In_code_owner _ _ _ Hin) as [c' Ho].
    destruct (Hown _ _ Ho) as [Hk' Hc'].
    destruct (N.eq_dec c' c) as [->|Hne]; [exact Ho|].
    exfalso. apply (Hpf c' c Hk' Hk Hne). rewrite Hc', Hcw.
    apply is_prefix_refl.
  - intros p Hp Hpre Hpw.
    destruct (code_owner t p) as [c'|] eqn:Ho; [|reflexivity].
    exfalso. destruct (Hown _ _ Ho) as [Hk' Hc'].
    destruct (N.eq_dec c' c) as [->|Hne]; [congruence|].
    apply (Hpf c' c Hk' Hk Hne). now rewrite Hc', Hcw.
Qed.

Lemma encode_loop_concat (t : code_table) (s acc : str) :
  (forall c, In c s -> In c (keys t)) ->
  encode_loop t s acc = Ok (acc ++ List.concat (map (code_of t) s)).
Proof.
  revert acc; induction s as [|c s IH]; intros acc Hin; simpl.
  - now rewrite app_nil_r.
  - unfold cindex, dict_index, code_of at 1, cget.
    destruct (@dict_get char str N.eqb t c) as [w|] eqn:E.
    + simpl. rewrite IH by (intros x Hx; apply Hin; now right).
      now rewrite <- app_assoc.
    + exfalso. apply (dict_get_None N.eqb N.eqb_eq) in E.
      apply E, Hin. now left.
Qed.

(** Decoding the concatenated codes of [s] under a prefix code whose
    keys cover [s] gives back [s]. *)
Lemma decode_concat (t : code_table) (s : str) :
  NoDup (keys t) -> prefix_code t -> (forall c, In c s -> In c (keys t)) ->
  huffman_decoding (List.concat (map (code_of t) s)) t = Ok s.
Proof.
  intros ND HP Hin.
  set (toks := map (fun c => (code_of t c, c)) s).
  assert (E1 : map fst toks = map (code_of t) s).
  { unfold toks. rewrite map_map. reflexivity. }
  assert (E2 : map snd toks = s).
  { unfold toks. rewrite map_map. apply map_id. }
  assert (G : Forall (greedy_token t) toks).
  { unfold toks. apply Forall_forall. intros tok Ht.
    apply in_map_iff in Ht as (c & <- & Hc).
    apply prefix_code_owner; auto.
    unfold code_of, cget.
    destruct (@dict_get char str N.eqb t c) as [w|] eqn:E; [reflexivity|].
    apply (dict_get_None N.eqb N.eqb_eq) in E. exfalso. auto. }
  unfold huffman_decoding. rewrite <- E1.
  rewrite <- (app_nil_r (List.concat (map fst toks))).
  rewrite (decode_loop_tokens [] [] G). simpl. now rewrite E2.
Qed.

(** ** [huffman_code] in a clean module state *)

Lemma prefix_code_on_incl (S S' : list char) (t : code_table) :
  (forall c, In c S' -> In c S) -> prefix_code_on S t -> prefix_code_on S' t.
Proof. intros H [H1 H2]. split; intros; [apply H1 | apply H2]; auto. Qed.

(** The codes of the symbols of the string do not depend on the module
    state the call starts from. *)
Lemma huffman_code_codes (s : str) (st1 st2 : code_table) (c : char) :
  s <> [] -> In c s ->
  cget (deref (match fst (huffman_code s st1) with Ok r => r | _ => ModuleCodeDict end)
              (snd (huffman_code s st1))) c =
  cget (deref (match fst (huffman_code s st2) with Ok r => r | _ => ModuleCodeDict end)
              (snd (huffman_code s st2))) c.
Proof.
  intros Hs Hc.
  destruct (huffman_code_run st1 Hs) as (t & Hred & Hwf & ND & Hl & Hrun1).
  destruct (huffman_code_run st2 Hs) as (t' & Hred' & _ & _ & _ & Hrun2).
  assert (t' = t) by congruence. subst t'.
  rewrite Hrun1, Hrun2. destruct t as [c0|items]; [reflexivity|].
  cbn [fst snd deref].
  apply Hl in Hc. destruct (@paths_In_leaf _ [] c Hwf Hc) as [w Hw].
  rewrite !(@write_all_get (paths (PyList items) []) _ c w);
    auto; now rewrite (paths_keys Hwf).
Qed.

(** In a clean state the returned table is a prefix code whose keys are
    exactly the symbols of the string, and the state stays clean. *)
Lemma huffman_code_clean (s : str) (st : code_table) :
  s <> [] -> clean_for s st ->
  exists r st',
    huffman_code s st = (Ok r, st') /\
    NoDup (keys (deref r st')) /\
    (forall c, In c (keys (deref r st')) <-> In c s) /\
    prefix_code (deref r st') /\
    clean_for s st'.
Proof.
  intros Hs [NDst Hst].
  destruct (huffman_code_prefix_code_on st Hs) as (r & st' & Hcall & Hcode).
  destruct (huffman_code_run st Hs) as (t & _ & Hwf & ND & Hl & Hrun).
  rewrite Hcall in Hrun. exists r, st'. split; [exact Hcall|].
  assert (Hkeys : NoDup (keys (deref r st')) /\
                  (forall c, In c (keys (deref r st')) <-> In c s) /\
                  clean_for s st').
  { destruct t as [c0|items]; injection Hrun as -> ->; cbn [deref].
    - split; [|split].
      + repeat constructor. simpl. tauto.
      + intros c. rewrite <- Hl. simpl. tauto.
      + now split.
    - assert (Hk : forall c, In c (keys (write_all (paths (PyList items) []) st))
                      <-> In c s).
      { intros c. rewrite write_all_keys, (paths_keys Hwf), Hl.
        specialize (Hst c). tauto. }
      split; [now apply write_all_NoDup|]. split; [exact Hk|].
      split; [now apply write_all_NoDup | apply Hk]. }
  destruct Hkeys as (H1 & H2 & H3).
  split; [exact H1|]. split; [exact H2|]. split; [|exact H3].
  apply (@prefix_code_on_incl s); [apply H2 | exact Hcode].
Qed.

(** From a clean state the round trip restores the string. *)
Lemma decode_encode_clean (s : str) (st : code_table) :
  s <> [] -> clean_for s st ->
  exists st', decode_encode s st = (Ok s, st').
Proof.
  intros Hs Hclean.
  destruct (huffman_code_clean Hs Hclean) as (r & st1 & Hc1 & ND1 & Hk1 & HP1 & Hcl1).
  destruct (huffman_code_clean Hs Hcl1) as (r2 & st2 & Hc2 & ND2 & Hk2 & HP2 & _).
  exists st2. unfold decode_encode, huffman_encoding, mbind.
  rewrite Hc1, Hc2.
  rewrite encode_loop_concat by (intros c Hc; now apply Hk1).
  simpl app.
  assert (E : map (code_of (deref r st1)) s = map (code_of (deref r2 st2)) s).
  { apply map_ext_in. intros c Hc. unfold code_of.
    pose proof (@huffman_code_codes s st st1 c Hs Hc) as H.
    rewrite Hc1, Hc2 in H. cbn [fst snd] in H. now rewrite H. }
  rewrite E, decode_concat; auto. intros c Hc. now apply Hk2.
Qed.

(** ** The module-level [code_dict] across calls *)

(** On a string with two distinct symbols [huffman_code] returns the
    module-level dictionary itself, and every key that dictionary held
    before the call is still in it. *)
Lemma huffman_code_keeps_keys (s : str) (st : code_table) (a b : char) :
  In a s -> In b s -> a <> b ->
  exists st', huffman_code s st = (Ok ModuleCodeDict, st') /\
              forall c, In c (keys st) -> In c (keys st').
Proof.
  intros Ha Hb Hab.
  assert (Hs : s <> []) by (intros ->; contradiction).
  destruct (huffman_code_run st Hs) as (t & _ & Hwf & _ & Hl & Hrun).
  destruct t as [c0|items].
  - exfalso. apply Hl in Ha, Hb. simpl in Ha, Hb.
    destruct Ha as [<-|[]]. destruct Hb as [<-|[]]. congruence.
  - eexists. split; [exact Hrun|].
    intros c Hc. apply write_all_keys. now left.
Qed.

(** [C6] The table [huffman_code] returns depends on earlier calls: in
    the state right after import [huffman_code("cd")] gives
    [{c: "0", d: "1"}], after a call [huffman_code("ab")] it gives
    [{a: "0", b: "1", c: "0", d: "1"}]; in both cases the value returned
    is the module-level [code_dict] object, not a new dictionary. *)
Theorem huffman_code_depends_on_history :
  let after_ab := snd (huffman_code (py "ab") []) in
  huffman_code (py "cd") [] =
    (Ok ModuleCodeDict, [(chr "c", py "0"); (chr "d", py "1")]) /\
  huffman_code (py "cd") after_ab =
    (Ok ModuleCodeDict,
     [(chr "a", py "0"); (chr "b", py "1");
      (chr "c", py "0"); (chr "d", py "1")]).
Proof. split; reflexivity. Qed.

(** [C1] After a call [huffman_code("xy")] the round trip on ["abc"]
    returns ["ycyyc"]: the stale code ["1"] of [y] is a prefix of the
    codes of [a] and [b].  In the state right after import the same
    round trip returns ["abc"]. *)
Theorem decode_encode_after_other_input :
  let after_xy := snd (huffman_code (py "xy") []) in
  fst (decode_encode (py "abc") after_xy) = Ok (py "ycyyc") /\
  fst (decode_encode (py "abc") []) = Ok (py "abc").
Proof. split; reflexivity. Qed.

(** [C2] After a call [huffman_code("xy")] the table returned by
    [huffman_code("abc")] still holds [x] and [y]; [x] and [c] share the
    code ["0"] and the code ["1"] of [y] is a prefix of the code ["10"]
    of [a], so the table is not a prefix code. *)
Theorem huffman_code_table_after_other_input :
  let after_xy := snd (huffman_code (py "xy") []) in
  let table := [(chr "x", py "0"); (chr "y", py "1"); (chr "c", py "0");
                (chr "a", py "10"); (chr "b", py "11")] in
  huffman_code (py "abc") after_xy = (Ok ModuleCodeDict, table) /\
  code_of table (chr "x") = code_of table (chr "c") /\
  is_prefix (code_of table (chr "y")) (code_of table (chr "a")) /\
  ~ prefix_code table.
Proof.
  split; [reflexivity|]. split; [reflexivity|]. split.
  - exists (py "0"). reflexivity.
  - intros [_ H].
    apply (H (chr "y") (chr "a")); simpl; auto 6; [discriminate|].
    exists (py "0"). reflexivity.
Qed.

(** * Further properties of the module *)

(** ** The frequency table *)

Lemma wsum_cset_new (h : char -> Z) (acc : freq_table) (c : char) (v : Z) :
  cget acc c = None -> wsum h (cset acc c v) = (wsum h acc + v * h c)%Z.
Proof.
  unfold cget, cset. induction acc as [|[k n] acc IH]; simpl; intros E.
  - lia.
  - destruct (N.eqb c k); [discriminate|]. simpl. rewrite IH by exact E. lia.
Qed.

Lemma wsum_cset_old (h : char -> Z) (acc : freq_table) (c : char) (n v : Z) :
  cget acc c = Some n ->
  wsum h (cset acc c v) = (wsum h acc + (v - n) * h c)%Z.
Proof.
  unfold cget, cset. induction acc as [|[k m] acc IH]; simpl; intros E.
  - discriminate.
  - destruct (N.eqb_spec c k) as [->|Hne]; simpl.
    + injection E as ->. lia.
    + rewrite IH by exact E. lia.
Qed.

Lemma wsum_step (h : char -> Z) (acc : freq_table) (c : char) :
  wsum h (letter_distribution_step acc c) = (wsum h acc + h c)%Z.
Proof.
  unfold letter_distribution_step. destruct (cget acc c) as [n|] eqn:E.
  - rewrite (@wsum_cset_old h acc c n (n + 1) E). lia.
  - rewrite (@wsum_cset_new h acc c 1 E). lia.
Qed.

Lemma wsum_letter_distribution (h : char -> Z) (s : str) :
  wsum h (letter_distribution s) = zsum h s.
Proof.
  unfold letter_distribution.
  assert (H : forall acc,
            wsum h (fold_left letter_distribution_step s acc) =
            (wsum h acc + zsum h s)%Z).
  { induction s as [|c s IH]; intros acc; simpl; [lia|].
    rewrite IH, wsum_step. lia. }
  rewrite H. reflexivity.
Qed.

Lemma zsum_const_one (s : str) : zsum (fun _ => 1%Z) s = py_len s.
Proof.
  unfold py_len. induction s as [|c s IH]; [reflexivity|].
  cbn [zsum List.length]. rewrite IH, Nat2Z.inj_succ. lia.
Qed.

(** [X1] The table [letter_distribution] returns has one entry for each
    character of the string and no other; the count of an entry is the
    number of occurrences of its character in the string; and the counts
    add up to the length of the string. *)
Theorem letter_distribution_counts (original_string : str) :
  NoDup (keys (letter_distribution original_string)) /\
  (forall c n, In (c, n) (letter_distribution original_string) <->
               In c original_string /\
               n = Z.of_nat (@count_occ char N.eq_dec original_string c)) /\
  total_count (letter_distribution original_string) = py_len original_string.
Proof.
  destruct (letter_distribution_keys original_string) as (ND & Hk & _).
  split; [exact ND|]. split.
  - intros c n. split.
    + intros Hin. split.
      * apply Hk. apply (in_map fst) in Hin. exact Hin.
      * rewrite <- letter_distribution_count. unfold freq_of, cget.
        now rewrite (@In_dict_get char Z N.eqb N.eqb_eq _ c n ND Hin).
    + intros [Hc ->]. apply Hk in Hc.
      apply in_map_iff in Hc as ([c' m] & E & Hin). simpl in E. subst c'.
      assert (m = Z.of_nat (@count_occ char N.eq_dec original_string c)).
      { rewrite <- letter_distribution_count. unfold freq_of, cget.
        now rewrite (@In_dict_get char Z N.eqb N.eqb_eq _ c m ND Hin). }
      now subst.
  - unfold total_count. rewrite wsum_letter_distribution.
    apply zsum_const_one.
Qed.

(** ** Strings with a single distinct symbol *)

Lemma letter_distribution_repeat (c : char) (n : nat) :
  letter_distribution (repeat c (S n)) = [(c, Z.of_nat (S n))].
Proof.
  unfold letter_distribution.
  assert (H : forall k m,
            fold_left letter_distribution_step (repeat c k) [(c, m)] =
            [(c, (m + Z.of_nat k)%Z)]).
  { induction k as [|k IH]; intros m; simpl repeat; simpl fold_left.
    - now rewrite Z.add_0_r.
    - unfold letter_distribution_step at 2, cget, cset. simpl.
      rewrite N.eqb_refl. rewrite IH. do 2 f_equal. lia. }
  simpl repeat. simpl fold_left.
  change (letter_distribution_step [] c) with [(c, 1%Z)].
  rewrite H. do 2 f_equal. lia.
Qed.

Lemma encode_loop_repeat (c : char) (k : nat) (acc : str) :
  encode_loop [(c, [bit1])] (repeat c k) acc = Ok (acc ++ repeat bit1 k).
Proof.
  revert acc; induction k as [|k IH]; intros acc; simpl.
  - now rewrite app_nil_r.
  - unfold cindex, dict_index. simpl. rewrite N.eqb_refl. simpl.
    rewrite IH, <- app_assoc. reflexivity.
Qed.

Lemma decode_loop_repeat (c : char) (k : nat) (dec : str) :
  decode_loop (reverse_dict [(c, [bit1])]) (repeat bit1 k) dec [] =
  Ok (dec ++ repeat c k, []).
Proof.
  revert dec; induction k as [|k IH]; intros dec; simpl.
  - now rewrite app_nil_r.
  - rewrite IH, <- app_assoc. reflexivity.
Qed.

(** [X2] On a string that repeats one character, whatever its length
    and whatever the module state: [huffman_code] returns a new
    dictionary giving that character the code ["1"] and leaves
    [code_dict] alone, [huffman_encoding] returns one ["1"] for each
    character, and decoding that output with that table gives the
    string back. *)
Theorem single_symbol_string (c : char) (n : nat) (code_dict : code_table) :
  huffman_code (repeat c (S n)) code_dict =
    (Ok (Fresh [(c, [bit1])]), code_dict) /\
  huffman_encoding (repeat c (S n)) code_dict =
    (Ok (repeat bit1 (S n)), code_dict) /\
  huffman_decoding (repeat bit1 (S n)) [(c, [bit1])] = Ok (repeat c (S n)).
Proof.
  assert (H : huffman_code (repeat c (S n)) code_dict =
              (Ok (Fresh [(c, [bit1])]), code_dict)).
  { unfold huffman_code. rewrite letter_distribution_repeat. reflexivity. }
  split; [exact H|]. split.
  - unfold huffman_encoding, mbind. rewrite H. cbn [deref].
    now rewrite encode_loop_repeat.
  - unfold huffman_decoding. now rewrite decode_loop_repeat.
Qed.

(** ** Repeated calls *)

Lemma cset_same (d : code_table) (c : char) (w : str) :
  cget d c = Some w -> cset d c w = d.
Proof.
  unfold cget, cset. induction d as [|[k v] d IH]; simpl; intros E.
  - discriminate.
  - destruct (N.eqb_spec c k) as [->|Hne].
    + now injection E as ->.
    + now rewrite IH.
Qed.

Lemma write_all_fixed (ps : list (char * str)) (d : code_table) :
  (forall c w, In (c, w) ps -> cget d c = Some w) -> write_all ps d = d.
Proof.
  induction ps as [|[c w] ps IH]; intros H; [reflexivity|].
  change (write_all ((c, w) :: ps) d) with (write_all ps (cset d c w)).
  rewrite cset_same by (apply H; now left).
  apply IH. intros c' w' Hin. apply H. now right.
Qed.

Lemma write_all_idem (ps : list (char * str)) (d : code_table) :
  NoDup (map fst ps) -> write_all ps (write_all ps d) = write_all ps d.
Proof.
  intros ND. apply write_all_fixed. intros c w Hin.
  now apply write_all_get.
Qed.

(** A second call on the same string returns the same reference and
    leaves the module state as the first call left it. *)
Lemma huffman_code_again (s : str) (st st' : code_table) (r : dict_ref) :
  s <> [] -> huffman_code s st = (Ok r, st') ->
  huffman_code s st' = (Ok r, st').
Proof.
  intros Hs Hcall.
  destruct (huffman_code_run st Hs) as (t & Hred & Hwf & ND & _ & Hrun).
  destruct (huffman_code_run st' Hs) as (t' & Hred' & _ & _ & _ & Hrun').
  assert (t' = t) by congruence. subst t'.
  rewrite Hcall in Hrun. rewrite Hrun'.
  assert (NDp : NoDup (map fst (paths t []))) by now rewrite (paths_keys Hwf).
  destruct t as [c|items]; injection Hrun as -> ->; [reflexivity|].
  f_equal. apply (@write_all_idem (paths (PyList items) []) st NDp).
Qed.

Lemma huffman_code_returns (s : str) (st : code_table) :
  s <> [] -> exists r st', huffman_code s st = (Ok r, st').
Proof.
  intros Hs. destruct (huffman_code_prefix_code_on st Hs) as (r & st' & H & _).
  eauto.
Qed.



(** ** What a call leaves in [code_dict] *)

(** [X4] A call of [huffman_code] on a non-empty string never removes a
    key from [code_dict] and never changes the entry of a character that
    does not occur in the string: what earlier calls wrote for other
    characters stays. *)
Theorem huffman_code_frame (original_string : str) (code_dict : code_table) :
  original_string <> [] ->
  exists r code_dict',
    huffman_code original_string code_dict = (Ok r, code_dict') /\
    (forall c, In c (keys code_dict) -> In c (keys code_dict')) /\
    (forall c, ~ In c original_string ->
               cget code_dict' c = cget code_dict c).
Proof.
  intros Hs.
  destruct (huffman_code_run code_dict Hs) as (t & _ & Hwf & _ & Hl & Hrun).
  rewrite Hrun. destruct t as [c0|items].
  - do 2 eexists. split; [reflexivity|]. auto.
  - do 2 eexists. split; [reflexivity|]. split.
    + intros c Hc. apply write_all_keys. now left.
    + intros c Hc. apply write_all_untouched.
      rewrite (paths_keys Hwf). now rewrite Hl.
Qed.

Lemma huffman_code_frame_witness :
  exists r code_dict',
    huffman_code (py "abc") [(chr "x", py "0")] = (Ok r, code_dict') /\
    (forall c, In c (keys [(chr "x", py "0")]) -> In c (keys code_dict')) /\
    (forall c, ~ In c (py "abc") ->
               cget code_dict' c = cget [(chr "x", py "0")] c).
Proof.
  apply (@huffman_code_frame (py "abc") [(chr "x", py "0")]). discriminate.
Defined.

(** [X5] The code [huffman_code] gives to a character of the string
    does not depend on the module state the call is made in: two calls
    on the same non-empty string from any two states return tables that
    agree on every character of the string, and both hold a code for
    it. *)
Theorem huffman_code_same_codes (original_string : str)
    (code_dict1 code_dict2 : code_table) :
  original_string <> [] ->
  exists r1 st1 r2 st2,
    huffman_code original_string code_dict1 = (Ok r1, st1) /\
    huffman_code original_string code_dict2 = (Ok r2, st2) /\
    forall c, In c original_string ->
      exists w, cget (deref r1 st1) c = Some w /\
                cget (deref r2 st2) c = Some w.
Proof.
  intros Hs.
  destruct (huffman_code_prefix_code_on code_dict1 Hs) as (r1 & st1 & H1 & P1).
  destruct (huffman_code_returns code_dict2 Hs) as (r2 & st2 & H2).
  exists r1, st1, r2, st2. split; [exact H1|]. split; [exact H2|].
  intros c Hc. destruct P1 as [P1 _]. destruct (P1 c Hc) as (w & Hw & _).
  exists w. split; [exact Hw|].
  pose proof (@huffman_code_codes original_string code_dict1 code_dict2 c Hs Hc)
    as E.
  rewrite H1, H2 in E. cbn [fst snd] in E. now rewrite <- E.
Qed.

Lemma huffman_code_same_codes_witness :
  exists r1 st1 r2 st2,
    huffman_code (py "abc") [] = (Ok r1, st1) /\
    huffman_code (py "abc") [(chr "x", py "0"); (chr "y", py "1")] =
      (Ok r2, st2) /\
    forall c, In c (py "abc") ->
      exists w, cget (deref r1 st1) c = Some w /\
                cget (deref r2 st2) c = Some w.
Proof.
  apply (@huffman_code_same_codes (py "abc") []
           [(chr "x", py "0"); (chr "y", py "1")]).
  discriminate.
Defined.

(** ** Round trips *)

(** [X6] The loop of [huffman_encoding] followed by [huffman_decoding]
    is the identity for every table that is a binary prefix code: for
    a dictionary whose codes are non-empty bit strings none of which is
    a prefix of another, and a string of characters that all have an
    entry, encoding finds every code and decoding the result with the
    same table returns the string. *)
Theorem table_round_trip (code_dict : code_table) (s : str) :
  NoDup (keys code_dict) -> prefix_code code_dict ->
  (forall c, In c s -> In c (keys code_dict)) ->
  exists encoded_string,
    encode_loop code_dict s [] = Ok encoded_string /\
    huffman_decoding encoded_string code_dict = Ok s.
Proof.
  intros ND HP Hin. eexists. split.
  - apply encode_loop_concat. exact Hin.
  - simpl. now apply decode_concat.
Qed.

Lemma table_round_trip_witness :
  exists encoded_string,
    encode_loop [(chr "a", py "0"); (chr "b", py "10")] (py "abba") [] =
      Ok encoded_string /\
    huffman_decoding encoded_string [(chr "a", py "0"); (chr "b", py "10")] =
      Ok (py "abba").
Proof.
  apply (@table_round_trip [(chr "a", py "0"); (chr "b", py "10")] (py "abba")).
  - repeat constructor; simpl; intuition discriminate.
  - split.
    + intros c [<-|[<-|[]]]; eexists; (split; [reflexivity|]);
        (split; [discriminate|]); repeat constructor;
        (now left) || (now right).
    + intros c1 c2 [<-|[<-|[]]] [<-|[<-|[]]] Hne [q Hq];
        try congruence; discriminate.
  - intros c Hc. simpl in *. intuition.
Defined.

(** [X7] In a module state whose [code_dict] holds no character foreign
    to the string (for instance right after import, or after earlier
    calls on the same string), [huffman_code] on a non-empty string
    returns a table whose keys are exactly the characters of the string
    and which is a binary prefix code, and the state stays of that
    kind. *)
Theorem huffman_code_clean_table (original_string : str)
    (code_dict : code_table) :
  original_string <> [] -> clean_for original_string code_dict ->
  exists r code_dict',
    huffman_code original_string code_dict = (Ok r, code_dict') /\
    NoDup (keys (deref r code_dict')) /\
    (forall c, In c (keys (deref r code_dict')) <-> In c original_string) /\
    prefix_code (deref r code_dict') /\
    clean_for original_string code_dict'.
Proof. intros Hs Hc. exact (huffman_code_clean Hs Hc). Qed.

Lemma huffman_code_clean_table_witness :
  exists r code_dict',
    huffman_code (py "abacabad") [] = (Ok r, code_dict') /\
    NoDup (keys (deref r code_dict')) /\
    (forall c, In c (keys (deref r code_dict')) <-> In c (py "abacabad")) /\
    prefix_code (deref r code_dict') /\
    clean_for (py "abacabad") code_dict'.
Proof.
  apply (@huffman_code_clean_table (py "abacabad") []).
  - discriminate.
  - split; [constructor | intros c []].
Defined.

(** [X8] In such a state
    [huffman_decoding(huffman_encoding(s), huffman_code(s))] returns [s]
    for every non-empty string [s]. *)
Theorem round_trip_clean_state (original_string : str)
    (code_dict : code_table) :
  original_string <> [] -> clean_for original_string code_dict ->
  exists code_dict',
    decode_encode original_string code_dict = (Ok original_string, code_dict').
Proof. intros Hs Hc. exact (decode_encode_clean Hs Hc). Qed.

Lemma round_trip_clean_state_witness :
  exists code_dict',
    decode_encode (py "abacabad") [] = (Ok (py "abacabad"), code_dict').
Proof.
  apply (@round_trip_clean_state (py "abacabad") []).
  - discriminate.
  - split; [constructor | intros c []].
Defined.

(** ** The output of [huffman_encoding] *)

Lemma weighted_length_wsum (d : freq_table) (t : code_table) :
  weighted_length d t = wsum (fun c => py_len (code_of t c)) d.
Proof.
  induction d as [|[c n] d IH]; simpl; [reflexivity|]. now rewrite IH.
Qed.

Lemma py_len_concat (C : char -> str) (s : str) :
  py_len (List.concat (map C s)) = zsum (fun c => py_len (C c)) s.
Proof.
  unfold py_len. induction s as [|c s IH]; simpl; [reflexivity|].
  rewrite length_app, Nat2Z.inj_add, IH. reflexivity.
Qed.

Lemma Forall_concat_map (C : char -> str) (s : str) :
  (forall c, In c s -> Forall is_bit (C c)) ->
  Forall is_bit (List.concat (map C s)).
Proof.
  induction s as [|c s IH]; intros H; simpl; [constructor|].
  apply Forall_app. split; [apply H; now left|].
  apply IH. intros x Hx. apply H. now right.
Qed.

Lemma prefix_code_on_key (S : list char) (t : code_table) (c : char) :
  prefix_code_on S t -> In c S ->
  In c (keys t) /\ code_of t c <> [] /\ Forall is_bit (code_of t c).
Proof.
  intros [H _] Hc. destruct (H c Hc) as (w & Hw & Hne & Hb).
  unfold code_of. rewrite Hw. split; [|auto].
  apply (dict_get_In N.eqb N.eqb_eq) in Hw.
  apply (in_map fst) in Hw. exact Hw.
Qed.

(** [X9] On a non-empty string, in every module state,
    [huffman_encoding] returns (it never raises [KeyError]): the result
    is the concatenation of the codes the table of [huffman_code] gives
    to the characters of the string, in order; it consists of the
    characters ["0"] and ["1"] only; its length is the sum over the
    frequency table of count times code length; and the module state
    afterwards is the one [huffman_code] leaves. *)
Theorem huffman_encoding_output (original_string : str)
    (code_dict : code_table) :
  original_string <> [] ->
  exists r code_dict',
    huffman_code original_string code_dict = (Ok r, code_dict') /\
    huffman_encoding original_string code_dict =
      (Ok (List.concat (map (code_of (deref r code_dict')) original_string)),
       code_dict') /\
    Forall is_bit
      (List.concat (map (code_of (deref r code_dict')) original_string)) /\
    py_len (List.concat (map (code_of (deref r code_dict')) original_string)) =
      weighted_length (letter_distribution original_string)
        (deref r code_dict').
Proof.
  intros Hs.
  destruct (huffman_code_prefix_code_on code_dict Hs) as (r & st' & H & HP).
  exists r, st'. split; [exact H|]. split; [|split].
  - unfold huffman_encoding, mbind. rewrite H.
    rewrite encode_loop_concat; [reflexivity|].
    intros c Hc. now apply (@prefix_code_on_key _ _ c HP).
  - apply Forall_concat_map. intros c Hc. now apply (@prefix_code_on_key _ _ c HP).
  - rewrite py_len_concat, weighted_length_wsum.
    now rewrite wsum_letter_distribution.
Qed.

Lemma huffman_encoding_output_witness :
  exists r code_dict',
    huffman_code (py "abacabad") [] = (Ok r, code_dict') /\
    huffman_encoding (py "abacabad") [] =
      (Ok (List.concat (map (code_of (deref r code_dict')) (py "abacabad"))),
       code_dict') /\
    Forall is_bit
      (List.concat (map (code_of (deref r code_dict')) (py "abacabad"))) /\
    py_len (List.concat (map (code_of (deref r code_dict')) (py "abacabad"))) =
      weighted_length (letter_distribution (py "abacabad"))
        (deref r code_dict').
Proof.
  apply (@huffman_encoding_output (py "abacabad") []). discriminate.
Defined.

(** ** Length of the codes *)

Lemma leaves_length (t : tree) :
  well_formed t -> (1 <= List.length (leaves t))%nat.
Proof.
  induction 1 as [c | l r Hl IHl Hr IHr]; simpl; [lia|].
  rewrite !length_app. lia.
Qed.

Lemma paths_depth (t : tree) :
  well_formed t ->
  forall index c w, In (c, w) (paths t index) ->
    (List.length w + 1 <= List.length index + List.length (leaves t))%nat.
Proof.
  induction 1 as [c0 | l r Hl IHl Hr IHr]; intros index c w Hin; simpl in Hin.
  - destruct Hin as [E|[]]. injection E as -> ->. simpl. lia.
  - simpl leaves. rewrite !length_app. simpl List.length.
    pose proof (leaves_length Hl). pose proof (leaves_length Hr).
    apply in_app_or in Hin as [Hin|Hin].
    + apply IHl in Hin. rewrite length_app in Hin. simpl in Hin. lia.
    + apply IHr in Hin. rewrite length_app in Hin. simpl in Hin. lia.
Qed.

(** [X10] On a non-empty string with [k] distinct characters, in every
    module state, the code [huffman_code] gives to a character of the
    string has at least one bit and at most [k - 1] bits (one bit when
    [k] is 1). *)
Theorem code_length_bounds (original_string : str) (code_dict : code_table) :
  original_string <> [] ->
  exists r code_dict',
    huffman_code original_string code_dict = (Ok r, code_dict') /\
    forall c, In c original_string ->
      (1 <= List.length (code_of (deref r code_dict') c) <=
       Nat.max 1 (List.length (keys (letter_distribution original_string)) - 1))%nat.
Proof.
  intros Hs.
  destruct (huffman_code_run code_dict Hs) as (t & _ & Hwf & ND & Hl & Hrun).
  destruct (letter_distribution_keys original_string) as (NDk & Hk & _).
  assert (Hlen : List.length (leaves t) =
                 List.length (keys (letter_distribution original_string))).
  { apply Permutation_length, NoDup_Permutation; auto.
    intros c. rewrite Hl, Hk. tauto. }
  rewrite Hrun.
  assert (Hp : forall c, In c original_string ->
            exists w, In (c, w) (paths t [])).
  { intros c Hc. apply Hl in Hc. now apply paths_In_leaf. }
  assert (NDp : NoDup (map fst (paths t []))) by now rewrite (paths_keys Hwf).
  destruct t as [c0|items].
  - do 2 eexists. split; [reflexivity|]. intros c Hc. cbn [deref].
    apply Hl in Hc. simpl in Hc. destruct Hc as [<-|[]].
    assert (E : code_of [(c0, [bit1])] c0 = [bit1]).
    { unfold code_of, cget. simpl. now rewrite N.eqb_refl. }
    rewrite E. split; [apply Nat.le_refl | apply Nat.le_max_l].
  - do 2 eexists. split; [reflexivity|]. intros c Hc. cbn [deref].
    destruct (Hp c Hc) as [w Hw].
    assert (E : code_of (write_all (paths (PyList items) []) code_dict) c = w).
    { unfold code_of. now rewrite (@write_all_get _ code_dict c w NDp Hw). }
    rewrite E. clear E.
    destruct (paths_extend Hwf _ _ _ Hw) as (sf & Esf & _ & Hne).
    pose proof (paths_depth Hwf _ _ _ Hw) as Hd. rewrite Hlen in Hd.
    simpl in Esf. subst w. destruct sf; [congruence|].
    simpl List.length in *. split; [lia|].
    etransitivity; [|apply Nat.le_max_r]. lia.
Qed.

Lemma code_length_bounds_witness :
  exists r code_dict',
    huffman_code (py "abacabad") [] = (Ok r, code_dict') /\
    forall c, In c (py "abacabad") ->
      (1 <= List.length (code_of (deref r code_dict') c) <=
       Nat.max 1 (List.length (keys (letter_distribution (py "abacabad"))) - 1))%nat.
Proof.
  apply (@code_length_bounds (py "abacabad") []). discriminate.
Defined.

(** ** Frequent characters get short codes *)

(** The tree [node_reducer] builds for a non-empty string costs no more
    than any binary prefix-free code for the characters of the string. *)
Lemma huffman_tree_minimal (s : str) :
  s <> [] ->
  exists t,
    node_reducer (letter_distribution s) = Ok t /\
    forall C,
      prefix_free_on (keys (letter_distribution s)) C ->
      binary_on (keys (letter_distribution s)) C ->
      (paths_cost (freq_of (letter_distribution s)) (paths t []) <=
       code_cost (freq_of (letter_distribution s)) C
         (keys (letter_distribution s)))%Z.
Proof.
  intros Hs. set (d := letter_distribution s).
  destruct (letter_distribution_keys s) as (ND & Hk & Hpos).
  fold d in ND, Hk, Hpos.
  assert (Hd : d <> []) by now apply letter_distribution_nonempty.
  destruct (@node_fill_ok d [] ND node_list_inv_nil)
    as (l0 & H1 & H2 & _ & H4 & H5); [auto|].
  rewrite app_nil_r in H4.
  assert (HS0 : freq_sorted l0).
  { apply (@node_fill_sorted d [] l0 ND node_list_inv_nil);
      [auto | constructor | exact H1]. }
  assert (Pchars : Permutation (map e_char l0) (keys d)).
  { apply (Permutation_map fst) in H4. rewrite map_map in H4. exact H4. }
  assert (Hl0 : exists n, List.length l0 = S n).
  { destruct l0 as [|e0 l0]; [|now exists (List.length l0)].
    apply Permutation_nil in H4. contradiction. }
  destruct Hl0 as [n Hn].
  assert (Hagree : forall e0, In e0 l0 ->
            freq_of d (e_char e0) = e_freq e0 /\ (0 <= e_freq e0)%Z).
  { intros e0 He0.
    assert (Hin : In (e_char e0, e_freq e0) d).
    { apply (Permutation_in _ H4).
      now apply (in_map (fun e => (e_char e, e_freq e))). }
    pose proof (Hpos _ _ Hin).
    unfold freq_of, cget.
    rewrite (@In_dict_get char Z N.eqb N.eqb_eq d _ _ ND Hin). lia. }
  assert (Hfuel : (n <= List.length l0)%nat) by lia.
  destruct (@node_merge_optimal n (List.length l0) l0 (freq_of d) Hn Hfuel
              (H5 (Forall_nil _)) (node_list_inv_chars H2) HS0 Hagree)
    as (e & Hmerge & Hopt).
  exists (e_node e). split.
  - unfold node_reducer. rewrite H1. cbn [bind]. rewrite Hmerge. reflexivity.
  - intros C HP HB.
    assert (Hin : forall c, In c (map e_char l0) -> In c (keys d)).
    { intros c. now apply Permutation_in. }
    specialize (Hopt C (@prefix_free_on_equiv _ _ C Hin HP)
                  (@binary_on_equiv _ _ C Hin HB)).
    unfold code_cost in *. now rewrite (zsum_perm _ Pchars) in Hopt.
Qed.

(** [X11] On every string, in every module state: a character that
    occurs strictly more often than another never gets a longer code
    from [huffman_code] than that other character. *)
Theorem more_frequent_not_longer (original_string : str)
    (code_dict : code_table) (a b : char) :
  In a original_string -> In b original_string ->
  (@count_occ char N.eq_dec original_string b <
   @count_occ char N.eq_dec original_string a)%nat ->
  exists r code_dict',
    huffman_code original_string code_dict = (Ok r, code_dict') /\
    (List.length (code_of (deref r code_dict') a) <=
     List.length (code_of (deref r code_dict') b))%nat.
Proof.
  intros Ha Hb Hcount. rename original_string into s.
  assert (Hs : s <> []) by (intros ->; contradiction).
  assert (Hab : a <> b) by (intros ->; lia).
  destruct (huffman_code_run code_dict Hs) as (t & Hred & Hwf & NDl & Hl & Hrun).
  destruct (huffman_tree_minimal Hs) as (t' & Hred' & Hmin).
  assert (t' = t) by congruence. subst t'.
  destruct (letter_distribution_keys s) as (ND & Hk & _).
  set (d := letter_distribution s) in *.
  set (ps := paths t []) in *.
  assert (NDp : NoDup (map fst ps)) by (unfold ps; now rewrite (paths_keys Hwf)).
  assert (Pleaves : Permutation (keys d) (leaves t)).
  { apply NoDup_Permutation; auto. intros c. rewrite Hk, Hl. tauto. }
  assert (Hcode : forall c, In c (keys d) ->
            exists w, In (c, w) ps /\ code_of ps c = w).
  { intros c Hc. apply Hk, Hl in Hc.
    destruct (@paths_In_leaf t [] c Hwf Hc) as [w Hw]. exists w.
    split; [exact Hw|]. unfold code_of, cget.
    now rewrite (@In_dict_get char str N.eqb N.eqb_eq ps c w NDp Hw). }
  assert (HaS : In a (keys d)) by now apply Hk.
  assert (HbS : In b (keys d)) by now apply Hk.
  (* the codes of the table are the paths *)
  rewrite Hrun.
  destruct t as [c0|items].
  { exfalso. apply Hl in Ha, Hb. simpl in Ha, Hb.
    destruct Ha as [<-|[]]. destruct Hb as [<-|[]]. congruence. }
  do 2 eexists. split; [reflexivity|]. cbn [deref].
  destruct (Hcode a HaS) as (wa & Hwa & Ea).
  destruct (Hcode b HbS) as (wb & Hwb & Eb).
  assert (ETa : code_of (write_all ps code_dict) a = wa).
  { unfold code_of. now rewrite (@write_all_get ps code_dict a wa NDp Hwa). }
  assert (ETb : code_of (write_all ps code_dict) b = wb).
  { unfold code_of. now rewrite (@write_all_get ps code_dict b wb NDp Hwb). }
  change (List.length (code_of (write_all ps code_dict) a) <=
          List.length (code_of (write_all ps code_dict) b))%nat.
  rewrite ETa, ETb.
  destruct (le_lt_dec (List.length wa) (List.length wb)) as [Hle|Hlt];
    [exact Hle | exfalso].
  (* exchanging the two codes would be cheaper *)
  assert (HP0 : prefix_free_on (keys d) (code_of ps)).
  { intros x y Hx Hy Hne.
    destruct (Hcode x Hx) as (w1 & Hw1 & ->).
    destruct (Hcode y Hy) as (w2 & Hw2 & ->).
    exact (@paths_prefix_free (PyList items) Hwf NDl [] x w1 y w2
             Hw1 Hw2 Hne). }
  assert (HB0 : binary_on (keys d) (code_of ps)).
  { intros x Hx. destruct (Hcode x Hx) as (w1 & Hw1 & ->).
    destruct (paths_extend Hwf _ _ _ Hw1) as (sf & -> & Hbits & _).
    exact Hbits. }
  pose proof (Hmin _ (@prefix_free_swp _ _ a b HP0 HaS HbS)
                (@binary_swp _ _ a b HB0 HaS HbS)) as Hm.
  rewrite (@code_cost_swp (freq_of d) (code_of ps) (keys d) a b ND HaS HbS Hab)
    in Hm.
  assert (E0 : code_cost (freq_of d) (code_of ps) (keys d) =
               paths_cost (freq_of d) ps).
  { unfold code_cost. rewrite (zsum_perm _ Pleaves).
    unfold ps at 2. rewrite <- (paths_keys Hwf []).
    apply code_cost_paths. intros c w Hin. unfold code_of, cget.
    now rewrite (@In_dict_get char str N.eqb N.eqb_eq ps c w NDp Hin). }
  rewrite E0, Ea, Eb in Hm.
  unfold d in Hm. rewrite !letter_distribution_count in Hm. nia.
Qed.

Lemma more_frequent_not_longer_witness :
  exists r code_dict',
    huffman_code (py "abacabad") [] = (Ok r, code_dict') /\
    (List.length (code_of (deref r code_dict') (chr "a")) <=
     List.length (code_of (deref r code_dict') (chr "c")))%nat.
Proof.
  apply (@more_frequent_not_longer (py "abacabad") [] (chr "a") (chr "c")).
  - simpl. auto.
  - simpl. auto.
  - vm_compute. lia.
Defined.

(** ** The output of [huffman_decoding] *)

Lemma tokens_length (t : code_table) (toks : list (str * char)) :
  Forall (greedy_token t) toks ->
  (List.length toks <= List.length (List.concat (map fst toks)))%nat.
Proof.
  induction 1 as [|[w c] toks (Hne & _) _ IH]; [simpl; lia|].
  cbn [map fst List.concat List.length]. rewrite length_app.
  simpl in Hne. destruct w; [congruence|]. cbn [List.length].
  cbn [Nat.add]. apply le_n_S.
  eapply Nat.le_trans; [exact IH | apply Nat.le_add_l].
Qed.

(** [X12] For every input string and every table, [huffman_decoding]
    returns a string that has at most as many characters as the input
    and consists of keys of the table only. *)
Theorem huffman_decoding_output (encoded_string : str)
    (code_dict : code_table) :
  exists decoded_string,
    huffman_decoding encoded_string code_dict = Ok decoded_string /\
    (List.length decoded_string <= List.length encoded_string)%nat /\
    forall c, In c decoded_string -> In c (keys code_dict).
Proof.
  destruct (decode_loop_spec encoded_string [] (unmatched_nil code_dict))
    as (toks & rest & H1 & H2 & H3 & _).
  exists (map snd toks). unfold huffman_decoding. rewrite H1. simpl.
  split; [reflexivity|]. split.
  - simpl in H2. rewrite H2, length_app, length_map.
    eapply Nat.le_trans; [apply (tokens_length H3) | apply Nat.le_add_r].
  - intros c Hc. apply in_map_iff in Hc as ([w c'] & E & Hin).
    simpl in E. subst c'. rewrite Forall_forall in H3.
    destruct (H3 _ Hin) as (_ & Ho & _). simpl in Ho.
    apply code_owner_In in Ho. apply (in_map fst) in Ho. exact Ho.
Qed.

(** ** [bits_after_encoding] *)

Lemma nth_error_skipn (A : Type) (l : list A) (i : nat) :
  (i < List.length l)%nat ->
  exists x, nth_error l i = Some x /\ skipn i l = x :: skipn (S i) l.
Proof.
  revert i; induction l as [|y l IH]; intros i Hi; simpl in Hi; [lia|].
  destruct i as [|i].
  - exists y. auto.
  - destruct (IH i) as (x & H1 & H2); [lia|]. exists x. auto.
Qed.

Lemma huffman_encoding_of_code (s : str) (st st' : code_table) (r : dict_ref) :
  s <> [] -> huffman_code s st = (Ok r, st') ->
  huffman_encoding s st =
  (Ok (List.concat (map (code_of (deref r st')) s)), st').
Proof.
  intros Hs H.
  destruct (huffman_code_prefix_code_on st Hs) as (r0 & st0 & H0 & HP).
  rewrite H in H0. injection H0 as <- <-.
  unfold huffman_encoding, mbind. rewrite H.
  rewrite encode_loop_concat; [reflexivity|].
  intros c Hc. now apply (@prefix_code_on_key _ _ c HP).
Qed.

(** While the calls in the loop body do not change the module state,
    the loop runs over all keys and adds up the lengths of their
    codes. *)
Lemma count_loop_total (s : str) (r : dict_ref) (st : code_table) :
  huffman_code s st = (Ok r, st) ->
  forall remaining count,
    (remaining <= List.length (deref r st))%nat ->
    count_loop remaining s r (List.length (deref r st)) count st =
    (Returned
       (count +
        zsum (fun k => py_len (code_of (deref r st) k))
          (skipn (List.length (deref r st) - remaining) (keys (deref r st))))%Z,
     st).
Proof.
  intros Hcall. set (T := deref r st).
  assert (Hlen : List.length (keys T) = List.length T) by apply length_map.
  induction remaining as [|remaining IH]; intros count Hrem;
    cbn [count_loop]; fold T; rewrite Nat.eqb_refl; cbn [negb].
  - rewrite Nat.sub_0_r, <- Hlen, skipn_all. simpl. now rewrite Z.add_0_r.
  - destruct (@nth_error_skipn _ (keys T) (List.length T - S remaining))
      as (k & Hk & Hskip); [lia|].
    rewrite Hk, Hskip.
    replace (S (List.length T - S remaining))
      with (List.length T - remaining)%nat by lia.
    assert (Hin : In k (keys T)) by (eapply nth_error_In; exact Hk).
    destruct (cget T k) as [w|] eqn:Ew.
    2:{ exfalso. apply (dict_get_None N.eqb N.eqb_eq) in Ew. contradiction. }
    unfold rbind, call. rewrite Hcall. unfold ref_index. fold T. rewrite Ew.
    rewrite IH by lia. simpl zsum. unfold code_of at 2. rewrite Ew.
    f_equal. f_equal. lia.
Qed.

(** The run of [bits_after_encoding], given what its first call of
    [huffman_code] returns. *)
Lemma bits_after_encoding_run (s : str) (st st' : code_table) (r : dict_ref) :
  s <> [] -> huffman_code s st = (Ok r, st') ->
  bits_after_encoding s st =
  (Returned
     (bits_label
        (py_len (deref r st') * 8 +
         zsum (fun k => py_len (code_of (deref r st') k)) (keys (deref r st')) +
         weighted_length (letter_distribution s) (deref r st'))),
   st').
Proof.
  intros Hs H.
  pose proof (@huffman_code_again _ _ _ _ Hs H) as H'.
  pose proof (@huffman_encoding_of_code _ _ _ _ Hs H') as He.
  unfold bits_after_encoding.
  unfold rbind at 1. unfold call at 1. rewrite H.
  unfold rbind at 1.
  rewrite (@count_loop_total s r st' H' (List.length (deref r st')) 0%Z)
    by apply Nat.le_refl.
  rewrite Nat.sub_diag. cbn [skipn].
  unfold rbind at 1. unfold call at 1. rewrite H'.
  unfold rbind, call. rewrite He. unfold rret.
  rewrite py_len_concat, weighted_length_wsum, wsum_letter_distribution.
  reflexivity.
Qed.

(** [X13] On a non-empty string, in every module state,
    [bits_after_encoding] returns: the dictionary it iterates over never
    changes size during the loop, and no key is missing.  The number it
    reports is 8 times the number of entries of the table
    [huffman_code] returns, plus the total length of the codes of all
    these entries, plus the length of the encoded string; entries that
    earlier calls left in [code_dict] are counted too.  The module state
    afterwards is the one a single call of [huffman_code] leaves. *)
Theorem bits_after_encoding_value (original_string : str)
    (code_dict : code_table) :
  original_string <> [] ->
  exists r code_dict',
    huffman_code original_string code_dict = (Ok r, code_dict') /\
    bits_after_encoding original_string code_dict =
    (Returned
       (bits_label
          (py_len (deref r code_dict') * 8 +
           zsum (fun k => py_len (code_of (deref r code_dict') k))
             (keys (deref r code_dict')) +
           weighted_length (letter_distribution original_string)
             (deref r code_dict'))),
     code_dict').
Proof.
  intros Hs.
  destruct (huffman_code_returns code_dict Hs) as (r & st' & H).
  exists r, st'. split; [exact H|]. now apply (@bits_after_encoding_run _ _ _ _ Hs H).
Qed.

Lemma bits_after_encoding_value_witness :
  exists r code_dict',
    huffman_code (py "abacabad") [] = (Ok r, code_dict') /\
    bits_after_encoding (py "abacabad") [] =
    (Returned
       (bits_label
          (py_len (deref r code_dict') * 8 +
           zsum (fun k => py_len (code_of (deref r code_dict') k))
             (keys (deref r code_dict')) +
           weighted_length (letter_distribution (py "abacabad"))
             (deref r code_dict'))),
     code_dict').
Proof.
  apply (@bits_after_encoding_value (py "abacabad") []). discriminate.
Defined.

(** [X14] In a module state whose [code_dict] holds no character
    foreign to the string, the number [bits_after_encoding] reports is
    8 times the number of distinct characters of the string, plus the
    total length of their codes, plus count times code length summed
    over the frequency table. *)
Theorem bits_after_encoding_clean (original_string : str)
    (code_dict : code_table) :
  original_string <> [] -> clean_for original_string code_dict ->
  exists r code_dict',
    huffman_code original_string code_dict = (Ok r, code_dict') /\
    bits_after_encoding original_string code_dict =
    (Returned
       (bits_label
          (py_len (letter_distribution original_string) * 8 +
           zsum (fun k => py_len (code_of (deref r code_dict') k))
             (keys (letter_distribution original_string)) +
           weighted_length (letter_distribution original_string)
             (deref r code_dict'))),
     code_dict').
Proof.
  intros Hs Hclean. rename original_string into s.
  destruct (huffman_code_clean Hs Hclean) as (r & st' & H & ND & Hk & _ & _).
  exists r, st'. split; [exact H|].
  rewrite (@bits_after_encoding_run _ _ _ _ Hs H).
  destruct (letter_distribution_keys s) as (NDd & Hkd & _).
  assert (P : Permutation (keys (deref r st')) (keys (letter_distribution s))).
  { apply NoDup_Permutation; auto. intros c. rewrite Hk, Hkd. tauto. }
  rewrite (zsum_perm _ P).
  assert (E : py_len (deref r st') = py_len (letter_distribution s)).
  { unfold py_len. f_equal. apply Permutation_length in P.
    unfold keys in P. now rewrite !length_map in P. }
  now rewrite E.
Qed.

Lemma bits_after_encoding_clean_witness :
  exists r code_dict',
    huffman_code (py "abacabad") [] = (Ok r, code_dict') /\
    bits_after_encoding (py "abacabad") [] =
    (Returned
       (bits_label
          (py_len (letter_distribution (py "abacabad")) * 8 +
           zsum (fun k => py_len (code_of (deref r code_dict') k))
             (keys (letter_distribution (py "abacabad"))) +
           weighted_length (letter_distribution (py "abacabad"))
             (deref r code_dict'))),
     code_dict').
Proof.
  apply (@bits_after_encoding_clean (py "abacabad") []).
  - discriminate.
  - split; [constructor | intros c []].
Defined.

(** ** The encoded string across module states *)

Lemma huffman_encoding_same (s : str) (st1 st2 : code_table) :
  fst (huffman_encoding s st1) = fst (huffman_encoding s st2).
Proof.
  destruct s as [|c0 s0]; [reflexivity|].
  assert (Hs : c0 :: s0 <> []) by discriminate.
  destruct (huffman_code_returns st1 Hs) as (r1 & st1' & H1).
  destruct (huffman_code_returns st2 Hs) as (r2 & st2' & H2).
  rewrite (@huffman_encoding_of_code _ _ _ _ Hs H1),
    (@huffman_encoding_of_code _ _ _ _ Hs H2).
  cbn [fst]. do 2 f_equal. apply map_ext_in. intros c Hc.
  pose proof (@huffman_code_codes (c0 :: s0) st1 st2 c Hs Hc) as E.
  rewrite H1, H2 in E. cbn [fst snd] in E. unfold code_of. now rewrite E.
Qed.

(** [X15] What [huffman_encoding] returns for a string (an encoded
    string, or the exception on the empty string) is the same in every
    module state: unlike the table, the encoded string does not depend
    on earlier calls. *)
Theorem huffman_encoding_state_independent (original_string : str)
    (code_dict1 code_dict2 : code_table) :
  fst (huffman_encoding original_string code_dict1) =
  fst (huffman_encoding original_string code_dict2).
Proof. apply huffman_encoding_same. Qed.


